(** * Vehicle price finder backend: the search route of [server.js]

    A shallow embedding of the Express server in [src/server.js]: the CORS
    origin callback, the in-memory cache ([getCacheKey], [getFromCache],
    [setCache]) and the handler of [GET /api/vehicles/search], followed by
    the properties of the cache-aside lookup.

    Conventions of the embedding.
    - A JavaScript string is the [string] of its UTF-8 bytes.
      [JSON.stringify] escapes the double quote, the backslash and the code
      units below 0x20, each of them a single byte, and copies the rest (lone
      surrogates apart, which text decoded from a query string or a JSON
      body does not contain).
    - A JavaScript number is a [Z]: the numbers of the program are the
      literals 50, 10, 0, 400, 500, HTTP status codes, array lengths and
      millisecond timestamps.
    - [undefined] is [None] at type [option value].
    - The module-level [cache], the clock read by [Date.now()] and what the
      process has written to the console and sent upstream form the [world]
      that every operation threads through.
    - [process.env] is read but never written: the API key is a parameter
      of the handler, fixed for the life of the process.
    - Requests are handled one after the other; the rate limiter in front
      of [/api/] is left out: the handlers are taken from the moment a
      request reaches them.
    - The inbound request is a plain GET without cache validators, so that
      what [res.json] sends is decided by the status alone: Express's
      [res.send] drops the body at 204, 205 and 304 and sends it otherwise. *)

From Stdlib Require Import ZArith Ascii String.
From stdpp Require Import base gmap strings list pretty.

Local Open Scope Z_scope.
Set Warnings "-register-all,-notation-for-abbreviation".

(** ** JavaScript values *)

(** What [JSON.parse] and the query parser of Express produce. *)
Inductive value : Type :=
| Null
| Bool (b : bool)
| Num (n : Z)
| Str (s : string)
| Arr (items : list value)
| Obj (props : list (string * value)).

(** A possibly [undefined] value. *)
Notation js := (option value).

(** ToBoolean. *)
Definition truthy (v : js) : bool :=
  match v with
  | None | Some Null => false
  | Some (Bool b) => b
  | Some (Num n) => negb (n =? 0)
  | Some (Str s) => negb (String.eqb s "")
  | Some (Arr _) | Some (Obj _) => true
  end.

(** Own property lookup in a property list (first binding wins). *)
Fixpoint own_prop (name : string) (props : list (string * value)) : js :=
  match props with
  | [] => None
  | (k, v) :: rest => if String.eqb k name then Some v else own_prop name rest
  end.

(** [{...props, name: v}]: an existing property keeps its place and takes
    the new value, a new one goes last. *)
Fixpoint set_prop (name : string) (v : value) (props : list (string * value))
  : list (string * value) :=
  match props with
  | [] => [(name, v)]
  | (k, v') :: rest =>
      if String.eqb k name then (k, v) :: rest
      else (k, v') :: set_prop name v rest
  end.

(** ** [JSON.stringify] *)

Definition dquote : ascii := "034".
Definition backslash : ascii := "092".

Definition hex_digit (n : N) : ascii :=
  if (n <? 10)%N then ascii_of_N (48 + n) else ascii_of_N (87 + n).

(** One code unit of a quoted JSON string (QuoteJSONString). *)
Definition escape_char (c : ascii) : string :=
  let n := N_of_ascii c in
  if (n =? 8)%N then String backslash "b"
  else if (n =? 9)%N then String backslash "t"
  else if (n =? 10)%N then String backslash "n"
  else if (n =? 12)%N then String backslash "f"
  else if (n =? 13)%N then String backslash "r"
  else if (n =? 34)%N then String backslash (String dquote "")
  else if (n =? 92)%N then String backslash (String backslash "")
  else if (n <? 32)%N then
    String backslash ("u00" +:+
      String (hex_digit (n / 16)) (String (hex_digit (n mod 16)) ""))
  else String c "".

Fixpoint escape (s : string) : string :=
  match s with
  | "" => ""
  | String c rest => escape_char c +:+ escape rest
  end.

Definition quote (s : string) : string :=
  String dquote (escape s +:+ String dquote "").

Definition join (sep : string) (parts : list string) : string :=
  String.concat sep parts.

Fixpoint JSON_stringify (v : value) : string :=
  match v with
  | Null => "null"
  | Bool true => "true"
  | Bool false => "false"
  | Num n => pretty n
  | Str s => quote s
  | Arr items => "[" +:+ join "," (map JSON_stringify items) +:+ "]"
  | Obj props =>
      "{" +:+
      join "," (map (fun kv => quote (fst kv) +:+ ":" +:+ JSON_stringify (snd kv))
                    props) +:+
      "}"
  end.

(** ToString, as a template literal applies it. *)
Fixpoint to_string (v : value) : string :=
  match v with
  | Null => "null"
  | Bool true => "true"
  | Bool false => "false"
  | Num n => pretty n
  | Str s => s
  | Arr items =>
      join "," (map (fun x => match x with Null => "" | _ => to_string x end) items)
  | Obj _ => "[object Object]"
  end.

(** An object literal may hold [undefined] properties; [JSON.stringify]
    leaves those out. *)
Definition object_literal (fields : list (string * js)) : value :=
  Obj (omap (fun kv => match snd kv with
                       | Some v => Some (fst kv, v)
                       | None => None
                       end) fields).

(** ** The cache *)

Definition CACHE_DURATION : Z := 30 * 60 * 1000.

(** [`${endpoint}-${JSON.stringify(params)}`] *)
Definition getCacheKey (endpoint : string) (params : list (string * js)) : string :=
  endpoint +:+ "-" +:+ JSON_stringify (object_literal params).

(** ** The world of the process *)

(** A cache entry, [{ data, timestamp }]. *)
Record entry := Entry { data : value; timestamp : Z }.

(** A thrown [Error]. *)
Record error := Error { message : string }.

(** What [fetch] is called with: the URL before its query string, the
    object given to [URLSearchParams], and the request headers. *)
Record fetch_request := FetchRequest {
  url : string;
  search_params : list (string * js);
  headers : list (string * string)
}.

(** The [Response] of the upstream: its status (a three-digit HTTP status,
    as [fetch] resolves with and [res.status] accepts), and what [text()]
    and [json()] do (each rejects with an error, or resolves: the body may
    fail to read, or be no JSON). *)
Record Response := {
  status : Z;
  text : error + string;
  json : error + value
}.

Definition ok (r : Response) : bool := (200 <=? status r) && (status r <=? 299).

(** One upstream exchange: the time it takes and how the promise settles
    (rejected with an error, or fulfilled with a response). *)
Record exchange := {
  elapsed : Z;
  settled : error + Response
}.

(** The network answers each request with an exchange. *)
Notation network := (fetch_request -> exchange).

Inductive event : Type :=
| ConsoleLog (args : list value)
| ConsoleError (args : list value)
| Fetch (req : fetch_request).

Record world := World {
  cache : gmap string entry;
  now : Z;
  trace : list event
}.

(** What is sent: the status and the JSON body, or no body at all. *)
Record http_response := { code : Z; body : option value }.

(** The statuses at which Express's [res.send] drops the body. *)
Definition bodiless (c : Z) : bool := (c =? 204) || (c =? 205) || (c =? 304).

(** [res.status(c).json(b)] *)
Definition res_status_json (c : Z) (b : value) : http_response :=
  {| code := c; body := if bodiless c then None else Some b |}.
Definition res_json (b : value) : http_response := res_status_json 200 b.

(** ** Computations that read and write the world and may throw *)

Definition M (A : Type) : Type := world -> (error + A) * world.

#[global] Instance M_ret : MRet M := fun A (a : A) w => (inr a, w).
#[global] Instance M_bind : MBind M := fun A B (k : A -> M B) (m : M A) w =>
  match m w with
  | (inl e, w') => (inl e, w')
  | (inr a, w') => k a w'
  end.

Definition throw {A} (e : error) : M A := fun w => (inl e, w).

(** [try { body } catch (error) { handler error }] *)
Definition try_catch {A} (body : M A) (handler : error -> M A) : M A := fun w =>
  match body w with
  | (inl e, w') => handler e w'
  | (inr a, w') => (inr a, w')
  end.

(** An awaited promise that has settled. *)
Definition await {A} (p : error + A) : M A := fun w => (p, w).

Definition Date_now : M Z := fun w => (inr (now w), w).

Definition cache_get (key : string) : M (option entry) := fun w =>
  (inr (cache w !! key), w).
Definition cache_delete (key : string) : M unit := fun w =>
  (inr tt, World (delete key (cache w)) (now w) (trace w)).
Definition cache_set (key : string) (e : entry) : M unit := fun w =>
  (inr tt, World (<[key := e]> (cache w)) (now w) (trace w)).

Definition emit (ev : event) : M unit := fun w =>
  (inr tt, World (cache w) (now w) (trace w ++ [ev])).
Definition console_log (args : list value) : M unit := emit (ConsoleLog args).
Definition console_error (args : list value) : M unit := emit (ConsoleError args).

(** [await fetch(...)]: the request goes out, time passes, and the promise
    settles. *)
Definition fetch (net : network) (req : fetch_request) : M Response := fun w =>
  let x := net req in
  (settled x, World (cache w) (now w + elapsed x) (trace w ++ [Fetch req])).

(** Property [name] of a value other than [null].  The program reads
    [listings] and [length], which no prototype supplies to an object: an
    object has what it owns, an array and a string have their [length]
    (which the program only compares with 0). *)
Definition property (v : value) (name : string) : js :=
  match v with
  | Obj props => own_prop name props
  | Arr items =>
      if String.eqb name "length" then Some (Num (Z.of_nat (length items)))
      else None
  | Str s =>
      if String.eqb name "length" then Some (Num (Z.of_nat (String.length s)))
      else None
  | Null | Bool _ | Num _ => None
  end.

(** [o.name]: reading a property of [null] or [undefined] throws. *)
Definition get_prop (o : js) (name : string) : M js :=
  match o with
  | None =>
      throw (Error ("Cannot read properties of undefined (reading '" +:+ name +:+ "')"))
  | Some Null =>
      throw (Error ("Cannot read properties of null (reading '" +:+ name +:+ "')"))
  | Some v => mret (property v name)
  end.

(** [x === n] for a number literal [n]. *)
Definition strict_eq_num (x : js) (n : Z) : bool :=
  match x with
  | Some (Num m) => m =? n
  | _ => false
  end.

(** The own enumerable properties that [{...v}] copies. *)
Definition spread (v : value) : list (string * value) :=
  match v with
  | Obj props => props
  | Arr items => imap (fun i x => (pretty i, x)) items
  | Str s =>
      imap (fun i c => (pretty i, Str (String c ""))) (String.list_ascii_of_string s)
  | Null | Bool _ | Num _ => []
  end.

(** ** [getFromCache] and [setCache] *)

Definition getFromCache (key : string) : M value :=
  cached ← cache_get key;
  match cached with
  | Some e =>
      t ← Date_now;
      if t - timestamp e <? CACHE_DURATION then mret (data e)
      else cache_delete key;; mret Null
  | None => cache_delete key;; mret Null
  end.

Definition setCache (key : string) (d : value) : M unit :=
  t ← Date_now;
  cache_set key (Entry d t).

(** ** The CORS origin callback *)

(** [s.endsWith(suffix)] *)
Definition endsWith (s suffix : string) : bool :=
  let n := String.length s in
  let m := String.length suffix in
  (m <=? n)%nat && String.eqb (String.substring (n - m) m s) suffix.

Definition allowedOrigins : list string :=
  ["http://localhost:3000"; "https://claude.ai"].

(** The [origin] option given to [cors]: [origin] is the request's Origin
    header, [None] when the request has none; [callback] receives an error
    (or [null]) and whether the origin is allowed. *)
Definition cors_origin {A} (origin : option string)
    (callback : option error -> bool -> A) : A :=
  if negb (truthy (Str <$> origin)) then callback None true
  else
    let o := default "" origin in
    if endsWith o ".claude.ai" || bool_decide (o ∈ allowedOrigins)
    then callback None true
    else callback None true.

(** ** The route [GET /api/vehicles/search] *)

Section Server.

(** [process.env.MARKETCHECK_API_KEY], fixed when the process starts. *)
Variable MARKETCHECK_API_KEY : option string.

Definition missing_parameters : value :=
  Obj [("error", Str "Missing required parameters: make, model, year, zip")].

Definition key_not_configured : value :=
  Obj [("error", Str "Marketcheck API key not configured");
       ("message", Str "Please add MARKETCHECK_API_KEY to your .env file")].

Definition no_listings : value :=
  Obj [("listings", Arr []);
       ("num_found", Num 0);
       ("message", Str "No listings found for this vehicle")].

Definition cache_params (make model year zip radius : js) : list (string * js) :=
  [("make", make); ("model", model); ("year", year); ("zip", zip);
   ("radius", radius)].

Definition upstream_request (make model year zip radius rows : js) : fetch_request :=
  {| url := "https://api.marketcheck.com/v2/search/car/active";
     search_params :=
       [("api_key", Str <$> MARKETCHECK_API_KEY);
        ("make", make); ("model", model); ("year", year); ("zip", zip);
        ("radius", radius); ("rows", rows); ("start", Some (Num 0))];
     headers := [("Accept", "application/json")] |}.

(** The handler, given the network and [req.query]. *)
Definition vehicles_search (net : network) (query : list (string * value))
  : M http_response :=
  try_catch
    (let make := own_prop "make" query in
     let model := own_prop "model" query in
     let year := own_prop "year" query in
     let zip := own_prop "zip" query in
     let radius := Some (default (Num 50) (own_prop "radius" query)) in
     let rows := Some (default (Num 10) (own_prop "rows" query)) in
     if negb (truthy make) || negb (truthy model) || negb (truthy year)
        || negb (truthy zip)
     then mret (res_status_json 400 missing_parameters)
     else
       let cacheKey := getCacheKey "search" (cache_params make model year zip radius) in
       cachedData ← getFromCache cacheKey;
       if truthy (Some cachedData) then
         console_log [Str "Cache hit for:"; Str cacheKey];;
         mret (res_json (Obj (set_prop "cached" (Bool true) (spread cachedData))))
       else if negb (truthy (Str <$> MARKETCHECK_API_KEY)) then
         mret (res_status_json 500 key_not_configured)
       else
         console_log
           [Str ("Fetching from Marketcheck API: "
                 +:+ to_string (default Null year) +:+ " "
                 +:+ to_string (default Null make) +:+ " "
                 +:+ to_string (default Null model) +:+ " near "
                 +:+ to_string (default Null zip))];;
         response ← fetch net (upstream_request make model year zip radius rows);
         if negb (ok response) then
           errorText ← await (text response);
           console_error
             [Str "Marketcheck API error:"; Num (status response); Str errorText];;
           mret (res_status_json (status response)
                   (Obj [("error", Str "Marketcheck API request failed");
                         ("status", Num (status response));
                         ("details", Str errorText)]))
         else
           data ← await (json response);
           listings ← get_prop (Some data) "listings";
           empty ← (if negb (truthy listings) then mret true
                    else len ← get_prop listings "length";
                         mret (strict_eq_num len 0));
           if (empty : bool) then mret (res_json no_listings)
           else
             setCache cacheKey data;;
             mret (res_json data))
    (fun error =>
       console_error [Str "Error in /api/vehicles/search:"; Str (message error)];;
       mret (res_status_json 500
               (Obj [("error", Str "Internal server error");
                     ("message", Str (message error))]))).

End Server.

(** * Vocabulary of the properties *)

(** ** Reading a quoted string back *)

Definition unhex (c : ascii) : N :=
  let n := N_of_ascii c in
  if (n <? 58)%N then (n - 48)%N else (n - 87)%N.

Definition unescape_letter (e : ascii) : ascii :=
  let n := N_of_ascii e in
  if (n =? 98)%N then "008"
  else if (n =? 116)%N then "009"
  else if (n =? 110)%N then "010"
  else if (n =? 102)%N then "012"
  else if (n =? 114)%N then "013"
  else e.

Definition prepend (c : ascii) (r : option (string * string)) : option (string * string) :=
  match r with
  | Some (s, rest) => Some (String c s, rest)
  | None => None
  end.

(** [unescape s] reads escaped code units up to the closing double quote
    and returns them with what follows the quote. *)
Fixpoint unescape (s : string) : option (string * string) :=
  match s with
  | "" => None
  | String c rest =>
      if Ascii.eqb c dquote then Some ("", rest)
      else if Ascii.eqb c backslash then
        match rest with
        | String e rest' =>
            if Ascii.eqb e "u" then
              match rest' with
              | String _ (String _ (String h (String l rest''))) =>
                  prepend (ascii_of_N (16 * unhex h + unhex l)) (unescape rest'')
              | _ => None
              end
            else prepend (unescape_letter e) (unescape rest')
        | "" => None
        end
      else prepend c (unescape rest)
  end.

(** The values a key field takes in the statements below: a string, or (for
    the radius and its default) a string or a number. *)
Definition string_or_number (v : value) : Prop :=
  match v with
  | Str _ | Num _ => True
  | _ => False
  end.

(** ** Requests, keys and worlds *)

(** The required parameters are all present and non-empty. *)
Definition valid (query : list (string * value)) : bool :=
  truthy (own_prop "make" query) && truthy (own_prop "model" query)
  && truthy (own_prop "year" query) && truthy (own_prop "zip" query).

(** The radius and row count after their defaults. *)
Definition radius_of (query : list (string * value)) : value :=
  default (Num 50) (own_prop "radius" query).
Definition rows_of (query : list (string * value)) : value :=
  default (Num 10) (own_prop "rows" query).

(** The cache key the handler computes for a query. *)
Definition search_key (query : list (string * value)) : string :=
  getCacheKey "search"
    (cache_params (own_prop "make" query) (own_prop "model" query)
       (own_prop "year" query) (own_prop "zip" query) (Some (radius_of query))).

(** The upstream request the handler sends for a query. *)
Definition search_request (api_key : option string) (query : list (string * value))
  : fetch_request :=
  upstream_request api_key (own_prop "make" query) (own_prop "model" query)
    (own_prop "year" query) (own_prop "zip" query)
    (Some (radius_of query)) (Some (rows_of query)).

Definition configured (api_key : option string) : Prop :=
  truthy (Str <$> api_key) = true.

(** The cache holds an unexpired entry under [key]. *)
Definition live (w : world) (key : string) : Prop :=
  exists e, cache w !! key = Some e /\ now w - timestamp e < CACHE_DURATION.

(** The upstream requests among some events. *)
Definition fetches (evs : list event) : list fetch_request :=
  omap (fun ev => match ev with Fetch r => Some r | _ => None end) evs.

(** What a step from [w] to [w'] appended to the trace. *)
Definition new_events (w w' : world) : list event :=
  drop (length (trace w)) (trace w').

(** The upstream requests sent between [w] and [w']. *)
Definition upstream_calls (w w' : world) : list fetch_request :=
  fetches (new_events w w').

(** Time passing between two requests. *)
Definition tick (d : Z) (w : world) : world :=
  World (cache w) (now w + d) (trace w).

(** ** Events and worlds along the paths of the handler *)

Definition cache_hit_log (query : list (string * value)) : event :=
  ConsoleLog [Str "Cache hit for:"; Str (search_key query)].

Definition fetching_log (query : list (string * value)) : event :=
  ConsoleLog
    [Str ("Fetching from Marketcheck API: "
          +:+ to_string (default Null (own_prop "year" query)) +:+ " "
          +:+ to_string (default Null (own_prop "make" query)) +:+ " "
          +:+ to_string (default Null (own_prop "model" query)) +:+ " near "
          +:+ to_string (default Null (own_prop "zip" query)))].

Definition internal_error (e : error) : http_response :=
  res_status_json 500
    (Obj [("error", Str "Internal server error"); ("message", Str (message e))]).

Definition catch_log (e : error) : event :=
  ConsoleError [Str "Error in /api/vehicles/search:"; Str (message e)].

(** The handler from a cache miss on: the credential check, the upstream
    request and the answer made from the upstream's response. *)
Definition upstream_lookup (api_key : option string) (net : network)
    (query : list (string * value)) : M http_response :=
  if negb (truthy (Str <$> api_key)) then
    mret (res_status_json 500 key_not_configured)
  else
    emit (fetching_log query);;
    response ← fetch net (search_request api_key query);
    if negb (ok response) then
      errorText ← await (text response);
      console_error
        [Str "Marketcheck API error:"; Num (status response); Str errorText];;
      mret (res_status_json (status response)
              (Obj [("error", Str "Marketcheck API request failed");
                    ("status", Num (status response));
                    ("details", Str errorText)]))
    else
      data ← await (json response);
      listings ← get_prop (Some data) "listings";
      empty ← (if negb (truthy listings) then mret true
               else len ← get_prop listings "length";
                    mret (strict_eq_num len 0));
      if (empty : bool) then mret (res_json no_listings)
      else
        setCache (search_key query) data;;
        mret (res_json data).

(** The world once a miss has been found (the key's entry, if any, is gone). *)
Definition after_miss (query : list (string * value)) (w : world) : world :=
  World (delete (search_key query) (cache w)) (now w) (trace w).

(** The world once the upstream has answered. *)
Definition after_fetch (api_key : option string) (net : network)
    (query : list (string * value)) (w : world) : world :=
  World (delete (search_key query) (cache w))
    (now w + elapsed (net (search_request api_key query)))
    (trace w ++ [fetching_log query; Fetch (search_request api_key query)]).

Definition push (ev : event) (w : world) : world :=
  World (cache w) (now w) (trace w ++ [ev]).

(** [!data.listings || data.listings.length === 0], for a body other than
    [null]. *)
Definition no_results (data : value) : bool :=
  let listings := property data "listings" in
  negb (truthy listings)
  || strict_eq_num (property (default Null listings) "length") 0.

(** [sub] occurs in [s]. *)
Definition contains (s sub : string) : bool :=
  bool_decide (is_Some (String.index 0 sub s)).

(** A parameter of the query that is absent or the empty string. *)
Definition missing (query : list (string * value)) (name : string) : Prop :=
  own_prop name query = None \/ own_prop name query = Some (Str "").

Definition required_parameters : list string := ["make"; "model"; "year"; "zip"].

(** The fields that make up the cache key. *)
Definition key_fields : list string := ["make"; "model"; "year"; "zip"; "radius"].

(** ** The worlds the process can be in *)

(** The process starts with an empty cache; then time passes and requests
    are handled, one after the other. *)
Inductive reachable (api_key : option string) : world -> Prop :=
| reach_start (t : Z) : reachable api_key (World ∅ t [])
| reach_tick (d : Z) (w : world) :
    reachable api_key w -> reachable api_key (tick d w)
| reach_search (net : network) (query : list (string * value)) (w : world) :
    reachable api_key w ->
    reachable api_key (vehicles_search api_key net query w).2.

(** What holds of every cache entry of a running process: it was fetched
    with a configured key, and its payload is an object with listings. *)
Definition cache_ok (api_key : option string) (w : world) : Prop :=
  forall key e, cache w !! key = Some e ->
    configured api_key /\ (exists props, data e = Obj props)
    /\ no_results (data e) = false.

(** ** A scenario *)

(** The query [make=Toyota&model=Camry&year=2022&zip=94103]. *)
Definition camry : list (string * value) :=
  [("make", Str "Toyota"); ("model", Str "Camry"); ("year", Str "2022");
   ("zip", Str "94103")].

(** The same with a row count. *)
Definition camry_rows (n : string) : list (string * value) :=
  camry ++ [("rows", Str n)].

(** The payload [{listings: [{id: 1}], num_found: 1}]. *)
Definition one_listing : list (string * value) :=
  [("listings", Arr [Obj [("id", Num 1)]]); ("num_found", Num 1)].

(** A response with a status and a JSON body. *)
Definition json_response (code : Z) (payload : value) : Response :=
  {| status := code; text := inr (JSON_stringify payload); json := inr payload |}.

(** An upstream that answers every request with [r] after 120 ms. *)
Definition upstream (r : Response) : network :=
  fun _ => {| elapsed := 120; settled := inr r |}.

(** A process that has just started, at time 1000. *)
Definition cold : world := World ∅ 1000 [].

(** The world after the first lookup for [camry] has stored [one_listing],
    a full time to live later. *)
Definition camry_expired : world :=
  tick CACHE_DURATION
    (vehicles_search (Some "k") (upstream (json_response 200 (Obj one_listing)))
       camry cold).2.

(** * The health route *)

Section Health.

(** [new Date(t).toISOString()], the ISO 8601 text of a time in ms. *)
Variable toISOString : Z -> string.

(** [process.env.MARKETCHECK_API_KEY]. *)
Variable MARKETCHECK_API_KEY : option string.

(** [cache.size] *)
Definition cache_size : M nat := fun w => (inr (size (cache w)), w).

(** The handler of [GET /api/health]. *)
Definition health : M http_response :=
  t ← Date_now;
  n ← cache_size;
  mret (res_json
          (Obj [("status", Str "ok");
                ("timestamp", Str (toISOString t));
                ("cache_size", Num (Z.of_nat n));
                ("api_key_configured",
                 Bool (truthy (Str <$> MARKETCHECK_API_KEY)))])).

End Health.

(** * Further vocabulary *)

(** The world [w] once the upstream has answered a request sent from it. *)
Definition fetched (api_key : option string) (net : network)
    (query : list (string * value)) (w : world) : world :=
  World (cache w)
    (now w + elapsed (net (search_request api_key query)))
    (trace w ++ [fetching_log query; Fetch (search_request api_key query)]).

(** What a parsed query string holds: strings, and arrays and objects of
    such. *)
Fixpoint is_query_value (v : value) : bool :=
  match v with
  | Str _ => true
  | Arr items => forallb is_query_value items
  | Obj props => forallb (fun kv => is_query_value (snd kv)) props
  | Null | Bool _ | Num _ => false
  end.

(** The text of a sequence after its first element: each further element
    behind a comma, then the closing bracket and what follows. *)
Fixpoint tail_text (parts : list string) (close : ascii) (rest : string) : string :=
  match parts with
  | [] => String close rest
  | x :: parts' => "," +:+ x +:+ tail_text parts' close rest
  end.

(** The text of a sequence from its opening bracket on. *)
Definition items_text (parts : list string) (close : ascii) (rest : string) : string :=
  match parts with
  | [] => String close rest
  | x :: parts' => x +:+ tail_text parts' close rest
  end.

(** The text [f a] of an element can be told from what follows it, among
    the elements that [Q] admits. *)
Definition delimited {A : Type} (f : A -> string) (Q : A -> bool) (a : A) : Prop :=
  forall a' r r', Q a' = true -> f a +:+ r = f a' +:+ r' -> a = a' /\ r = r'.

(** The text of a member of an object. *)
Definition member_text (kv : string * value) : string :=
  quote (fst kv) +:+ ":" +:+ JSON_stringify (snd kv).

(** Every value of the query is a query value, as the query parser makes
    them. *)
Definition parsed (query : list (string * value)) : bool :=
  forallb (fun kv => is_query_value (snd kv)) query.

(** The query [make[]=Toyota&make[]=Lexus&model=Camry&year=2022&zip=94103]. *)
Definition two_makes : list (string * value) :=
  [("make", Arr [Str "Toyota"; Str "Lexus"]); ("model", Str "Camry");
   ("year", Str "2022"); ("zip", Str "94103")].

(** The query [make=Toyota,Lexus&model=Camry&year=2022&zip=94103]. *)
Definition comma_make : list (string * value) :=
  [("make", Str "Toyota,Lexus"); ("model", Str "Camry");
   ("year", Str "2022"); ("zip", Str "94103")].

(** The parameters of the query that the handler reads. *)
Definition read_parameters : list string :=
  ["make"; "model"; "year"; "zip"; "radius"; "rows"].

(** The query [camry] with parameters the handler does not read. *)
Definition camry_injected : list (string * value) :=
  camry ++ [("start", Str "500"); ("api_key", Str "someone-else")].

(** A radius: a query value, or the default, a number. *)
Definition is_radius (v : value) : bool :=
  match v with
  | Num _ => true
  | _ => is_query_value v
  end.

(** The exchange gave no payload: the request was rejected, the status is
    outside 200..299, or the body is no JSON. *)
Definition upstream_failed (x : exchange) : Prop :=
  match settled x with
  | inl _ => True
  | inr response => ok response = false \/ exists e, json response = inl e
  end.

(** Values of [listings] that are no array and yet count as results. *)
Definition counts_as_results (l : value) : Prop :=
  match l with
  | Num n => n <> 0
  | Bool b => b = true
  | Str s => s <> ""
  | Obj props => own_prop "length" props <> Some (Num 0)
  | Arr items => items <> []
  | Null => False
  end.

(** What a payload that gets cached is like. *)
Definition cacheable (d : value) : Prop :=
  no_results d = false /\ exists props, d = Obj props.

(** The [cache_size] a health answer reports. *)
Definition reported_size (r : error + http_response) : js :=
  match r with
  | inr res => v ← body res; property v "cache_size"
  | inl _ => None
  end.

(** The [api_key_configured] a health answer reports. *)
Definition reported_key (r : error + http_response) : js :=
  match r with
  | inr res => v ← body res; property v "api_key_configured"
  | inl _ => None
  end.

(** The text of what [json()] rejects with on a body that is no JSON. *)
Definition not_json : error := Error "Unexpected token < in JSON at position 0".

(** An upstream that cannot be reached. *)
Definition unreachable_upstream : network :=
  fun _ => {| elapsed := 30000; settled := inl (Error "fetch failed") |}.

(** [toISOString] at the time of [camry_expired], 1801120 ms, the one time
    the scenario asks the health route. *)
Definition iso_of_scenario : Z -> string :=
  fun _ => "1970-01-01T00:30:01.120Z".

(** The query [camry] with an explicit radius. *)
Definition camry_radius (r : string) : list (string * value) :=
  camry ++ [("radius", Str r)].

(** * Properties *)

(** ** Strings *)

Lemma append_cons (x : ascii) (a b : string) :
  String x a +:+ b = String x (a +:+ b).
Proof. reflexivity. Qed.

Lemma append_assoc (a b c : string) : (a +:+ b) +:+ c = a +:+ (b +:+ c).
Proof.
  induction a as [|x a IH]; [done|]. rewrite !append_cons. by f_equal.
Qed.

Lemma append_length (a b : string) :
  String.length (a +:+ b) = (String.length a + String.length b)%nat.
Proof.
  induction a as [|x a IH]; [done|]. rewrite append_cons. simpl. by f_equal.
Qed.

Lemma append_inv_tail (a b c : string) : a +:+ c = b +:+ c -> a = b.
Proof.
  revert b. induction a as [|x a IH]; intros [|y b] H.
  - done.
  - apply (f_equal String.length) in H.
    rewrite !append_length in H. simpl in H. lia.
  - apply (f_equal String.length) in H.
    rewrite !append_length in H. simpl in H. lia.
  - rewrite !append_cons in H. injection H as -> H. f_equal. by apply IH.
Qed.

(** ** Reading a quoted string back *)

Lemma unescape_escape_char (c : ascii) (rest : string) :
  unescape (escape_char c +:+ rest) = prepend c (unescape rest).
Proof. destruct c as [[] [] [] [] [] [] [] []]; reflexivity. Qed.

Lemma unescape_escape (s rest : string) :
  unescape (escape s +:+ String dquote rest) = Some (s, rest).
Proof.
  induction s as [|c s IH]; [reflexivity|].
  cbn [escape]. by rewrite append_assoc, unescape_escape_char, IH.
Qed.

Lemma quote_app (s r : string) :
  quote s +:+ r = String dquote (escape s +:+ String dquote r).
Proof.
  unfold quote. by rewrite append_cons, append_assoc.
Qed.

(** A quoted string is delimited: whatever follows it, the string and the
    rest can be told apart. *)
Lemma quote_app_inj (s1 s2 r1 r2 : string) :
  quote s1 +:+ r1 = quote s2 +:+ r2 -> s1 = s2 /\ r1 = r2.
Proof.
  rewrite !quote_app. intros [= H]. apply (f_equal unescape) in H.
  rewrite !unescape_escape in H. by injection H.
Qed.

Lemma quote_inj (s1 s2 : string) : quote s1 = quote s2 -> s1 = s2.
Proof.
  intros H. apply (f_equal (fun s => s +:+ "")) in H.
  by apply quote_app_inj in H as [? _].
Qed.

(** A decimal numeral never starts with a double quote. *)
Lemma pretty_N_go_head (x : N) (s : string) :
  (forall t, s <> String dquote t) -> forall t, pretty_N_go x s <> String dquote t.
Proof.
  revert s. induction (N.lt_wf_0 x) as [x _ IH]; intros s Hs.
  assert (x = 0 \/ 0 < x)%N as [->|Hx] by lia.
  - by rewrite pretty_N_go_0.
  - rewrite pretty_N_go_step by done. apply IH.
    + by apply N.div_lt.
    + intros t. unfold pretty_N_char. by repeat case_match.
Qed.

Lemma pretty_Z_head (n : Z) (t : string) : pretty n <> String dquote t.
Proof.
  destruct n as [|p|p]; unfold pretty, pretty_Z; [done| |done].
  unfold pretty, pretty_positive, pretty, pretty_N.
  case_decide; [done|]. by apply pretty_N_go_head.
Qed.

(** ** The cache key *)

Example getCacheKey_default_radius :
  getCacheKey "search"
    [("make", Some (Str "Toyota")); ("radius", Some (Num 50))]
  = "search-{" +:+ quote "make" +:+ ":" +:+ quote "Toyota" +:+ ","
      +:+ quote "radius" +:+ ":50}".
Proof. reflexivity. Qed.

(** The key of a complete parameter object, written out. *)
Lemma getCacheKey_params (endpoint : string) (make model year zip radius : value) :
  getCacheKey endpoint
    (cache_params (Some make) (Some model) (Some year) (Some zip) (Some radius))
  = endpoint +:+ "-{" +:+
    quote "make" +:+ ":" +:+ JSON_stringify make +:+ "," +:+
    quote "model" +:+ ":" +:+ JSON_stringify model +:+ "," +:+
    quote "year" +:+ ":" +:+ JSON_stringify year +:+ "," +:+
    quote "zip" +:+ ":" +:+ JSON_stringify zip +:+ "," +:+
    quote "radius" +:+ ":" +:+ JSON_stringify radius +:+ "}".
Proof.
  unfold getCacheKey, cache_params, object_literal.
  cbn [omap list_omap snd fst JSON_stringify map].
  unfold join. cbn [String.concat].
  rewrite !append_assoc. reflexivity.
Qed.

Lemma stringify_scalar_inj (r1 r2 : value) :
  string_or_number r1 -> string_or_number r2 ->
  JSON_stringify r1 +:+ "}" = JSON_stringify r2 +:+ "}" -> r1 = r2.
Proof.
  destruct r1, r2; try done; intros _ _; cbn [JSON_stringify]; intros H.
  - f_equal. apply append_inv_tail in H. by apply (inj pretty) in H.
  - rewrite quote_app in H. destruct (pretty n) eqn:E; [done|].
    rewrite append_cons in H. injection H as -> _.
    by apply pretty_Z_head in E.
  - rewrite quote_app in H. destruct (pretty n) eqn:E; [done|].
    rewrite append_cons in H. injection H as <- _.
    by apply pretty_Z_head in E.
  - f_equal. by apply quote_app_inj in H as [? _].
Qed.

(** C5. The cache key is a function of the tuple (make, model, year, zip,
    radius), and an injective one on string-valued fields (the radius being
    a string or, by its default, a number): two tuples have the same key
    exactly when they agree on all five fields. *)
Theorem cache_key_injective
    (make1 model1 year1 zip1 make2 model2 year2 zip2 : string)
    (radius1 radius2 : value) :
  string_or_number radius1 -> string_or_number radius2 ->
  getCacheKey "search"
    (cache_params (Some (Str make1)) (Some (Str model1)) (Some (Str year1))
       (Some (Str zip1)) (Some radius1))
  = getCacheKey "search"
      (cache_params (Some (Str make2)) (Some (Str model2)) (Some (Str year2))
         (Some (Str zip2)) (Some radius2))
  <-> make1 = make2 /\ model1 = model2 /\ year1 = year2 /\ zip1 = zip2
      /\ radius1 = radius2.
Proof.
  intros Hr1 Hr2. split.
  - rewrite !getCacheKey_params. cbn [JSON_stringify]. intros H.
    do 2 apply (inj (String.append _)) in H.
    apply quote_app_inj in H as [_ H]. apply (inj (String.append _)) in H.
    apply quote_app_inj in H as [-> H]. apply (inj (String.append _)) in H.
    apply quote_app_inj in H as [_ H]. apply (inj (String.append _)) in H.
    apply quote_app_inj in H as [-> H]. apply (inj (String.append _)) in H.
    apply quote_app_inj in H as [_ H]. apply (inj (String.append _)) in H.
    apply quote_app_inj in H as [-> H]. apply (inj (String.append _)) in H.
    apply quote_app_inj in H as [_ H]. apply (inj (String.append _)) in H.
    apply quote_app_inj in H as [-> H]. apply (inj (String.append _)) in H.
    apply quote_app_inj in H as [_ H]. apply (inj (String.append _)) in H.
    by apply stringify_scalar_inj in H as ->.
  - by intros (-> & -> & -> & -> & ->).
Qed.

Lemma cache_key_injective_witness :
  getCacheKey "search"
    (cache_params (Some (Str "Toyota")) (Some (Str "Camry")) (Some (Str "2022"))
       (Some (Str "94103")) (Some (Num 50)))
  <> getCacheKey "search"
       (cache_params (Some (Str "Toyota")) (Some (Str "Camry")) (Some (Str "2022"))
          (Some (Str "94103")) (Some (Str "50"))).
Proof.
  intros H.
  apply (cache_key_injective "Toyota" "Camry" "2022" "94103"
           "Toyota" "Camry" "2022" "94103" (Num 50) (Str "50") I I) in H.
  destruct H as (_ & _ & _ & _ & H). discriminate H.
Defined.

(** ** [getFromCache] *)

Lemma getFromCache_fresh (key : string) (w : world) (e : entry) :
  cache w !! key = Some e -> now w - timestamp e < CACHE_DURATION ->
  getFromCache key w = (inr (data e), w).
Proof.
  intros Hk Ht. unfold getFromCache, mbind, M_bind, cache_get, Date_now.
  rewrite Hk. by rewrite (proj2 (Z.ltb_lt _ _) Ht).
Qed.

Lemma getFromCache_stale (key : string) (w : world) (e : entry) :
  cache w !! key = Some e -> CACHE_DURATION <= now w - timestamp e ->
  getFromCache key w
  = (inr Null, World (delete key (cache w)) (now w) (trace w)).
Proof.
  intros Hk Ht. unfold getFromCache, mbind, M_bind, cache_get, Date_now.
  rewrite Hk. by rewrite (proj2 (Z.ltb_ge _ _) Ht).
Qed.

Lemma getFromCache_absent (key : string) (w : world) :
  cache w !! key = None ->
  getFromCache key w
  = (inr Null, World (delete key (cache w)) (now w) (trace w)).
Proof.
  intros Hk. unfold getFromCache, mbind, M_bind, cache_get. by rewrite Hk.
Qed.

Lemma getFromCache_miss (key : string) (w : world) :
  ~ live w key ->
  getFromCache key w
  = (inr Null, World (delete key (cache w)) (now w) (trace w)).
Proof.
  intros Hl. destruct (cache w !! key) as [e|] eqn:Hk.
  - apply (getFromCache_stale _ _ e Hk).
    destruct (Z.lt_ge_cases (now w - timestamp e) CACHE_DURATION); [|done].
    destruct Hl. by exists e.
  - by apply getFromCache_absent.
Qed.

(** ** The paths through the handler *)

Ltac run :=
  unfold upstream_lookup, setCache, console_error, console_log;
  unfold try_catch, mbind, M_bind, mret, M_ret, emit, fetch, await,
    Date_now, cache_set, throw, push, after_fetch, after_miss;
  cbn [cache now trace fst snd negb].

Section Paths.

Context (api_key : option string) (net : network).
Implicit Types (query : list (string * value)) (w : world).

Lemma valid_guard query :
  negb (truthy (own_prop "make" query)) || negb (truthy (own_prop "model" query))
  || negb (truthy (own_prop "year" query)) || negb (truthy (own_prop "zip" query))
  = negb (valid query).
Proof. unfold valid. by repeat destruct (truthy _). Qed.

(** The handler with its guard, its key and its way after a miss named. *)
Lemma vehicles_search_unfold query w :
  vehicles_search api_key net query w
  = try_catch
      (if negb (valid query) then mret (res_status_json 400 missing_parameters)
       else
         cachedData ← getFromCache (search_key query);
         if truthy (Some cachedData) then
           emit (cache_hit_log query);;
           mret (res_json (Obj (set_prop "cached" (Bool true) (spread cachedData))))
         else upstream_lookup api_key net query)
      (fun e => emit (catch_log e);; mret (internal_error e)) w.
Proof. unfold vehicles_search. rewrite valid_guard. reflexivity. Qed.

Lemma search_invalid query w :
  valid query = false ->
  vehicles_search api_key net query w
  = (inr (res_status_json 400 missing_parameters), w).
Proof.
  intros Hv. rewrite vehicles_search_unfold. unfold try_catch. by rewrite Hv.
Qed.

Lemma search_hit query w (e : entry) :
  valid query = true ->
  cache w !! search_key query = Some e ->
  now w - timestamp e < CACHE_DURATION ->
  truthy (Some (data e)) = true ->
  vehicles_search api_key net query w
  = (inr (res_json (Obj (set_prop "cached" (Bool true) (spread (data e))))),
     push (cache_hit_log query) w).
Proof.
  intros Hv Hk Ht Hd. rewrite vehicles_search_unfold. run. rewrite Hv.
  cbn [negb]. rewrite (getFromCache_fresh _ _ e Hk Ht), Hd. reflexivity.
Qed.

Lemma search_unconfigured query w :
  valid query = true -> ~ live w (search_key query) -> ~ configured api_key ->
  vehicles_search api_key net query w
  = (inr (res_status_json 500 key_not_configured), after_miss query w).
Proof.
  intros Hv Hl Hc. rewrite vehicles_search_unfold. run. rewrite Hv.
  cbn [negb]. rewrite (getFromCache_miss _ _ Hl).
  apply not_true_is_false in Hc. rewrite Hc. reflexivity.
Qed.

(** From a miss with the key configured, the handler's answer is decided by
    how the upstream exchange goes. *)
Lemma search_fetch query w :
  valid query = true -> ~ live w (search_key query) -> configured api_key ->
  vehicles_search api_key net query w
  = match settled (net (search_request api_key query)) with
    | inl e => (inr (internal_error e), push (catch_log e) (after_fetch api_key net query w))
    | inr response =>
        if negb (ok response) then
          match text response with
          | inl e =>
              (inr (internal_error e),
               push (catch_log e) (after_fetch api_key net query w))
          | inr errorText =>
              (inr (res_status_json (status response)
                      (Obj [("error", Str "Marketcheck API request failed");
                            ("status", Num (status response));
                            ("details", Str errorText)])),
               push (ConsoleError [Str "Marketcheck API error:";
                                   Num (status response); Str errorText])
                 (after_fetch api_key net query w))
          end
        else
          match json response with
          | inl e => (inr (internal_error e), push (catch_log e) (after_fetch api_key net query w))
          | inr Null =>
              let e := Error "Cannot read properties of null (reading 'listings')" in
              (inr (internal_error e), push (catch_log e) (after_fetch api_key net query w))
          | inr data =>
              if no_results data then (inr (res_json no_listings), after_fetch api_key net query w)
              else
                (inr (res_json data),
                 World (<[search_key query :=
                            Entry data (now (after_fetch api_key net query w))]>
                          (cache (after_fetch api_key net query w)))
                   (now (after_fetch api_key net query w)) (trace (after_fetch api_key net query w)))
          end
    end.
Proof.
  intros Hv Hl Hc. rewrite vehicles_search_unfold. run. rewrite Hv.
  cbn [negb]. rewrite (getFromCache_miss _ _ Hl). unfold configured in Hc.
  rewrite Hc. cbn [truthy negb cache now trace]. rewrite <- app_assoc.
  cbn [app]. destruct (settled _) as [e|response]; [done|].
  destruct (ok response); cbn [negb]; [|by destruct (text response)].
  destruct (json response) as [e|data]; [done|].
  destruct data as [|b|n|s|items|props]; try done.
  - unfold no_results. cbn. destruct (own_prop "listings" props) as [l|]; [|done].
    cbn [default]. destruct l; cbn; try done.
    + by destruct b.
    + by destruct n.
    + by destruct s.
    + by destruct items.
    + by destruct (strict_eq_num _ _).
Qed.

End Paths.

(** ** Traces *)

Lemma upstream_calls_app (w : world) (c : gmap string entry) (t : Z)
    (evs : list event) :
  upstream_calls w (World c t (trace w ++ evs)) = fetches evs.
Proof.
  unfold upstream_calls, new_events. cbn [trace]. by rewrite drop_app_length.
Qed.

Lemma upstream_calls_same (w : world) (c : gmap string entry) (t : Z) :
  upstream_calls w (World c t (trace w)) = [].
Proof.
  unfold upstream_calls, new_events. cbn [trace]. by rewrite drop_all.
Qed.

Lemma upstream_calls_World (c0 c : gmap string entry) (t0 t : Z)
    (tr evs : list event) :
  upstream_calls (World c0 t0 tr) (World c t (tr ++ evs)) = fetches evs.
Proof. apply (upstream_calls_app (World c0 t0 tr)). Qed.

Ltac calls :=
  cbn [fst snd]; unfold push, after_fetch, after_miss, tick;
  cbn [trace cache now];
  first [ rewrite upstream_calls_World
        | rewrite <- ?app_assoc;
          first [ rewrite upstream_calls_app | rewrite upstream_calls_same ] ];
  try reflexivity.

(** ** Objects *)

Lemma own_prop_set_prop_eq (name : string) (v : value) (props : list (string * value)) :
  own_prop name (set_prop name v props) = Some v.
Proof.
  induction props as [|[k v'] props IH]; cbn.
  - by rewrite String.eqb_refl.
  - destruct (String.eqb k name) eqn:E; cbn; by rewrite E.
Qed.

Lemma own_prop_set_prop_ne (name name' : string) (v : value)
    (props : list (string * value)) :
  name' <> name ->
  own_prop name' (set_prop name v props) = own_prop name' props.
Proof.
  intros Hne. induction props as [|[k v'] props IH]; cbn.
  - apply String.eqb_neq in Hne. by rewrite String.eqb_sym, Hne.
  - destruct (String.eqb k name) eqn:E; cbn; [|by rewrite IH].
    apply String.eqb_eq in E as ->.
    apply String.eqb_neq in Hne. by rewrite String.eqb_sym, Hne.
Qed.

Lemma no_results_false_object (data : value) :
  no_results data = false -> exists props, data = Obj props.
Proof. destruct data; try done. by eexists. Qed.

(** ** The cache of a running process *)

Lemma live_dec (w : world) (key : string) : live w key \/ ~ live w key.
Proof.
  destruct (cache w !! key) as [e|] eqn:Hk.
  - destruct (Z.lt_ge_cases (now w - timestamp e) CACHE_DURATION) as [Ht|Ht].
    + left. by exists e.
    + right. intros (e' & He' & Ht'). rewrite Hk in He'.
      injection He' as <-. lia.
  - right. intros (e' & He' & _). by rewrite Hk in He'.
Qed.

Lemma cache_ok_delete (api_key : option string) (w : world) (key : string)
    (t : Z) (evs : list event) :
  cache_ok api_key w -> cache_ok api_key (World (delete key (cache w)) t evs).
Proof.
  intros Hw k e. cbn [cache]. intros [_ Hk]%lookup_delete_Some. by apply (Hw k).
Qed.

Lemma cache_ok_search (api_key : option string) (net : network)
    (query : list (string * value)) (w : world) :
  cache_ok api_key w -> cache_ok api_key (vehicles_search api_key net query w).2.
Proof.
  intros Hw. destruct (valid query) eqn:Hv;
    [|by rewrite search_invalid].
  destruct (live_dec w (search_key query)) as [(e & Hk & Ht)|Hl].
  { destruct (Hw _ _ Hk) as (_ & [props Hp] & _).
    rewrite (search_hit _ _ _ _ e) by (by rewrite ?Hp). apply Hw. }
  destruct (truthy (Str <$> api_key)) eqn:Hc.
  2:{ rewrite search_unconfigured by (by unfold configured; rewrite ?Hc).
      by apply cache_ok_delete. }
  rewrite search_fetch by done.
  destruct (settled _) as [err|response]; [by apply cache_ok_delete|].
  destruct (negb (ok response));
    [destruct (text response); by apply cache_ok_delete|].
  destruct (json response) as [err|data]; [by apply cache_ok_delete|].
  destruct (no_results data) eqn:Hn.
  { destruct data; by apply cache_ok_delete. }
  assert (exists props, data = Obj props) as [props ->]
    by by apply no_results_false_object.
  intros k e. cbn [snd cache after_fetch now].
  intros [[<- <-]|[_ [_ Hk]%lookup_delete_Some]]%lookup_insert_Some.
  - cbn [data]. eauto.
  - by apply (Hw k).
Qed.

Lemma reachable_cache_ok (api_key : option string) (w : world) :
  reachable api_key w -> cache_ok api_key w.
Proof.
  induction 1 as [t|d w _ IH|net query w _ IH].
  - intros k e. cbn [cache]. by rewrite lookup_empty.
  - exact IH.
  - by apply cache_ok_search.
Qed.

Ltac traced :=
  cbn [cache now trace]; rewrite <- ?app_assoc; eexists _, _, _, _;
  split; [rewrite <- ?app_assoc; reflexivity | cbn; lia].

(** From a miss on, whatever the outcome, at most one request goes upstream. *)
Lemma upstream_lookup_trace (api_key : option string) (net : network)
    (query : list (string * value)) (w : world) :
  exists (s : error + http_response) (c : gmap string entry) (t : Z)
         (evs : list event),
    upstream_lookup api_key net query w = (s, World c t (trace w ++ evs))
    /\ (length (fetches evs) <= 1)%nat.
Proof.
  run. destruct (truthy (Str <$> api_key)); cbn [negb].
  2:{ destruct w as [c t tr]. eexists _, c, t, []. cbn [trace].
      split; [by rewrite app_nil_r|cbn; lia]. }
  destruct (settled _) as [err|response].
  { traced. }
  destruct (ok response); cbn [negb].
  2:{ destruct (text response); traced. }
  destruct (json response) as [err|data].
  { traced. }
  destruct data as [|b|n|s|items|props]; cbn.
  1-5: traced.
  destruct (own_prop "listings" props) as [l|]; cbn.
  2:{ traced. }
  destruct l as [|[]|[]|[]|[]|lp]; cbn;
    try (traced).
  destruct (strict_eq_num _ _);
    traced.
Qed.

(** The handler always answers, and sends at most one request upstream. *)
Lemma search_responds (api_key : option string) (net : network)
    (query : list (string * value)) (w : world) :
  exists (res : http_response) (c : gmap string entry) (t : Z) (evs : list event),
    vehicles_search api_key net query w = (inr res, World c t (trace w ++ evs))
    /\ (length (fetches evs) <= 1)%nat.
Proof.
  rewrite vehicles_search_unfold.
  unfold try_catch, mbind, M_bind, mret, M_ret, emit.
  destruct (valid query); cbn [negb].
  2:{ destruct w as [c t tr]. eexists _, c, t, []. cbn [trace].
      split; [by rewrite app_nil_r|cbn; lia]. }
  assert (forall w1, trace w1 = trace w ->
    exists res c t evs,
      (let (s, w') := upstream_lookup api_key net query w1 in
       match s with
       | inl e => (inr (internal_error e),
                   World (cache w') (now w') (trace w' ++ [catch_log e]))
       | inr a => (inr a, w')
       end) = (@inr error http_response res, World c t (trace w ++ evs))
      /\ (length (fetches evs) <= 1)%nat) as Hmiss.
  { intros w1 Hw1.
    destruct (upstream_lookup_trace api_key net query w1)
      as ([err|res] & c & t & evs & -> & Hevs); rewrite Hw1; cbn [cache now trace].
    - eexists _, _, _, (evs ++ [_]). split; [by rewrite app_assoc|].
      unfold fetches in *. rewrite omap_app. cbn. rewrite length_app. cbn. lia.
    - by eexists _, _, _, _. }
  unfold getFromCache, cache_get, cache_delete, Date_now, mbind, M_bind, mret, M_ret.
  destruct (cache w !! search_key query) as [e|]; [|by apply Hmiss].
  destruct (_ <? _); [|by apply Hmiss].
  destruct (truthy (Some (data e))); [|by apply Hmiss].
  eexists _, _, _, [_]. split; [reflexivity|cbn; lia].
Qed.

(** A status outside 200..299 other than 304 is sent with its body. *)
Lemma upstream_status_has_body (response : Response) :
  ok response = false -> status response <> 304 ->
  bodiless (status response) = false.
Proof.
  unfold ok, bodiless. intros Hok H304.
  destruct (Z.eqb_spec (status response) 204) as [E|_];
    [rewrite E in Hok; discriminate|].
  destruct (Z.eqb_spec (status response) 205) as [E|_];
    [rewrite E in Hok; discriminate|].
  by destruct (Z.eqb_spec (status response) 304).
Qed.

(** ** What a lookup does after a miss *)

Section Lookup.

Context (api_key : option string).
Implicit Types (net : network) (query : list (string * value)) (w : world).

(** The world after a lookup that stored [payload]. *)
Lemma search_stored net query w (response : Response)
    (props : list (string * value)) (x : value) (xs : list value) :
  valid query = true -> ~ live w (search_key query) -> configured api_key ->
  settled (net (search_request api_key query)) = inr response ->
  ok response = true -> json response = inr (Obj props) ->
  own_prop "listings" props = Some (Arr (x :: xs)) ->
  vehicles_search api_key net query w
  = (inr (res_json (Obj props)),
     World (<[search_key query :=
                Entry (Obj props)
                  (now w + elapsed (net (search_request api_key query)))]>
              (delete (search_key query) (cache w)))
       (now w + elapsed (net (search_request api_key query)))
       (trace w ++ [fetching_log query; Fetch (search_request api_key query)])).
Proof.
  intros Hv Hl Hc Hs Hok Hj Hp. rewrite search_fetch by done.
  rewrite Hs, Hok, Hj. unfold no_results. cbn [negb property].
  rewrite Hp. reflexivity.
Qed.

(** The world after a lookup whose upstream found nothing. *)
Lemma search_nothing_found net query w (response : Response) (payload : value) :
  valid query = true -> ~ live w (search_key query) -> configured api_key ->
  settled (net (search_request api_key query)) = inr response ->
  ok response = true -> json response = inr payload ->
  payload <> Null -> no_results payload = true ->
  vehicles_search api_key net query w
  = (inr (res_json no_listings), after_fetch api_key net query w).
Proof.
  intros Hv Hl Hc Hs Hok Hj Hnull Hn. rewrite search_fetch by done.
  rewrite Hs, Hok, Hj. cbn [negb]. rewrite Hn. by destruct payload.
Qed.

(** A lookup within the time to live of an entry stored for the same key. *)
Lemma search_hit_stored net query query' w (c : gmap string entry)
    (props : list (string * value)) (t d : Z) (evs : list event) :
  valid query' = true -> search_key query' = search_key query ->
  d < CACHE_DURATION ->
  let w1 := World (<[search_key query := Entry (Obj props) t]> c) t evs in
  vehicles_search api_key net query' (tick d w1)
  = (inr (res_json (Obj (set_prop "cached" (Bool true) props))),
     push (cache_hit_log query') (tick d w1)).
Proof.
  intros Hv Hk Hd w1.
  apply (search_hit _ _ _ _ (Entry (Obj props) t)); [done| | |done].
  - rewrite Hk. cbn [tick cache w1]. by rewrite lookup_insert_eq.
  - cbn [tick now timestamp w1]. lia.
Qed.

(** From a miss with the credential configured, exactly one request goes
    upstream, whatever comes back. *)
Lemma search_miss_calls net query w :
  valid query = true -> ~ live w (search_key query) -> configured api_key ->
  upstream_calls w (vehicles_search api_key net query w).2
  = [search_request api_key query].
Proof.
  intros Hv Hl Hc. rewrite search_fetch by done.
  destruct (settled _) as [err|response]; [by calls|].
  destruct (negb (ok response)); [destruct (text response); by calls|].
  destruct (json response) as [err|payload]; [by calls|].
  destruct payload; try by calls.
  all: destruct (no_results _); by calls.
Qed.

(** After such a lookup the key holds nothing, or what this lookup wrote. *)
Lemma search_miss_cache net query w :
  valid query = true -> ~ live w (search_key query) -> configured api_key ->
  let after := (vehicles_search api_key net query w).2 in
  cache after !! search_key query = None
  \/ exists payload, cache after !! search_key query
                     = Some (Entry payload (now after)).
Proof.
  intros Hv Hl Hc. rewrite search_fetch by done.
  assert (forall ev,
    cache (push ev (after_fetch api_key net query w)) !! search_key query = None)
    as Hpush by (intros; apply lookup_delete_eq).
  assert (cache (after_fetch api_key net query w) !! search_key query = None)
    as Hfetch by apply lookup_delete_eq.
  destruct (settled _) as [err|response]; [by left|].
  destruct (negb (ok response)); [destruct (text response); by left|].
  destruct (json response) as [err|payload]; [by left|].
  destruct payload; try by left.
  all: destruct (no_results _); [by left|right; eexists].
  all: cbn [snd cache now]; by rewrite lookup_insert_eq.
Qed.

Lemma not_live_absent w (key : string) : cache w !! key = None -> ~ live w key.
Proof. intros Hk (e & He & _). by rewrite Hk in He. Qed.

Lemma not_live_stale w (key : string) (e : entry) :
  cache w !! key = Some e -> CACHE_DURATION <= now w - timestamp e ->
  ~ live w key.
Proof.
  intros Hk Ht (e' & He' & Ht'). rewrite Hk in He'. injection He' as <-. lia.
Qed.

(** C1. From a miss with the credential configured, a lookup for a valid
    query sends exactly one request upstream; when the upstream answers
    with a non-empty array of listings, the lookup answers with that payload
    as it is and stores it under the query's key, stamped with the time of
    the write; and the same lookup made less than the time to live later
    answers with the stored payload with [cached] set to [true] and every
    other property unchanged, sends nothing upstream and leaves the cache as
    it was. *)
Theorem consecutive_lookups net1 net2 query w (d : Z) :
  valid query = true -> ~ live w (search_key query) -> configured api_key ->
  upstream_calls w (vehicles_search api_key net1 query w).2
  = [search_request api_key query]
  /\ forall (response : Response) (props : list (string * value))
            (x : value) (xs : list value),
       settled (net1 (search_request api_key query)) = inr response ->
       ok response = true -> json response = inr (Obj props) ->
       own_prop "listings" props = Some (Arr (x :: xs)) ->
       d < CACHE_DURATION ->
       let first := vehicles_search api_key net1 query w in
       let second := vehicles_search api_key net2 query (tick d first.2) in
       first.1 = inr (res_json (Obj props))
       /\ cache first.2 !! search_key query
          = Some (Entry (Obj props) (now first.2))
       /\ second.1 = inr (res_json (Obj (set_prop "cached" (Bool true) props)))
       /\ own_prop "cached" (set_prop "cached" (Bool true) props)
          = Some (Bool true)
       /\ (forall name, name <> "cached" ->
             own_prop name (set_prop "cached" (Bool true) props)
             = own_prop name props)
       /\ upstream_calls (tick d first.2) second.2 = []
       /\ cache second.2 = cache first.2.
Proof.
  intros Hv Hl Hc. split; [by apply search_miss_calls|].
  intros response props x xs Hs Hok Hj Hp Hd first second.
  subst second first. rewrite (search_stored _ _ _ response props x xs) by done.
  cbn [fst snd]. rewrite search_hit_stored by done.
  cbn [fst snd cache now]. rewrite lookup_insert_eq.
  repeat split.
  - apply own_prop_set_prop_eq.
  - intros name Hne. by apply own_prop_set_prop_ne.
  - by calls.
Qed.

(** C2. The time to live is 1,800,000 ms.  For an entry of the cache of a
    running process, a read of its key returns its payload exactly when
    less than the time to live has passed since it was stored; the lookup
    then answers with that payload and sends nothing upstream.  A read that
    finds the entry older deletes it and reports a miss, and the lookup
    then sends one request upstream; afterwards the key holds nothing or
    what that lookup wrote. *)
Theorem cache_entry_expiry net query w (e : entry) :
  reachable api_key w -> valid query = true ->
  cache w !! search_key query = Some e ->
  let after := (vehicles_search api_key net query w).2 in
  CACHE_DURATION = 1800000
  /\ ((getFromCache (search_key query) w).1 = inr (data e)
      <-> now w - timestamp e < CACHE_DURATION)
  /\ (now w - timestamp e < CACHE_DURATION ->
      (vehicles_search api_key net query w).1
      = inr (res_json (Obj (set_prop "cached" (Bool true) (spread (data e)))))
      /\ upstream_calls w after = []
      /\ cache after = cache w)
  /\ (CACHE_DURATION <= now w - timestamp e ->
      getFromCache (search_key query) w = (inr Null, after_miss query w)
      /\ cache (after_miss query w) !! search_key query = None
      /\ upstream_calls w after = [search_request api_key query]
      /\ (cache after !! search_key query = None
          \/ exists payload, cache after !! search_key query
                             = Some (Entry payload (now after)))).
Proof.
  intros Hw Hv Hk after.
  destruct (reachable_cache_ok _ _ Hw _ _ Hk) as (Hc & [props Hp] & _).
  split; [reflexivity|]. split; [|split].
  - destruct (Z.lt_ge_cases (now w - timestamp e) CACHE_DURATION) as [Ht|Ht].
    + by rewrite (getFromCache_fresh _ _ e).
    + rewrite (getFromCache_stale _ _ e), Hp by done. cbn [fst]. split; [done|lia].
  - intros Ht. subst after.
    rewrite (search_hit _ _ _ _ e) by (by rewrite ?Hp).
    repeat split. by calls.
  - intros Ht. pose proof (not_live_stale _ _ _ Hk Ht) as Hl.
    split; [by apply (getFromCache_stale _ _ e)|].
    split; [apply lookup_delete_eq|].
    split; [by apply search_miss_calls|by apply search_miss_cache].
Qed.

(** C3. When one of make, model, year and zip is absent or the empty
    string, the lookup answers 400 with an error message that names the
    parameter, and the world is as it was: the cache was neither read nor
    written and nothing went upstream. *)
Theorem missing_parameter_rejected net query w (name : string) :
  name ∈ required_parameters -> missing query name ->
  vehicles_search api_key net query w
  = (inr (res_status_json 400 missing_parameters), w)
  /\ exists msg, missing_parameters = Obj [("error", Str msg)]
                 /\ contains msg name = true.
Proof.
  intros Hn Hm. unfold required_parameters in Hn.
  assert (truthy (own_prop name query) = false) as Hf
    by (by destruct Hm as [-> | ->]).
  split.
  - apply search_invalid. unfold valid.
    rewrite !elem_of_cons, elem_of_nil in Hn.
    destruct Hn as [->|[->|[->|[->|[]]]]]; rewrite Hf;
      by repeat destruct (truthy _).
  - eexists. split; [reflexivity|].
    rewrite !elem_of_cons, elem_of_nil in Hn.
    by destruct Hn as [->|[->|[->|[->|[]]]]]; vm_compute.
Qed.

(** C4, amended. When the upstream answers a valid query with an empty
    array of listings, the lookup answers with [listings] empty and
    [num_found] 0, writes no cache entry, and the same lookup made again,
    whenever, sends a request upstream again. *)
Theorem empty_result_not_cached net1 net2 query w (d : Z)
    (response : Response) (props : list (string * value)) :
  valid query = true -> ~ live w (search_key query) -> configured api_key ->
  settled (net1 (search_request api_key query)) = inr response ->
  ok response = true -> json response = inr (Obj props) ->
  own_prop "listings" props = Some (Arr []) ->
  let first := vehicles_search api_key net1 query w in
  let second := vehicles_search api_key net2 query (tick d first.2) in
  first.1 = inr (res_json no_listings)
  /\ property no_listings "listings" = Some (Arr [])
  /\ property no_listings "num_found" = Some (Num 0)
  /\ cache first.2 = delete (search_key query) (cache w)
  /\ upstream_calls w first.2 = [search_request api_key query]
  /\ upstream_calls (tick d first.2) second.2 = [search_request api_key query].
Proof.
  intros Hv Hl Hc Hs Hok Hj Hp first second.
  assert (first = (inr (res_json no_listings), after_fetch api_key net1 query w))
    as Hfirst.
  { apply (search_nothing_found _ _ _ response (Obj props)); try done.
    unfold no_results. cbn [property]. by rewrite Hp. }
  subst second. rewrite Hfirst. cbn [fst snd].
  repeat split.
  - by calls.
  - apply search_miss_calls; [done| |done].
    apply not_live_absent. apply lookup_delete_eq.
Qed.

(** C6. When the cache has no live entry for a valid query and the
    credential is not configured, the lookup answers 500 with a body made
    of an [error] and a [message] string, sends nothing upstream, and the
    handler returns. *)
Theorem unconfigured_key_fails net query w :
  valid query = true -> ~ live w (search_key query) -> ~ configured api_key ->
  vehicles_search api_key net query w
  = (inr (res_status_json 500 key_not_configured), after_miss query w)
  /\ (exists err msg,
        key_not_configured = Obj [("error", Str err); ("message", Str msg)])
  /\ upstream_calls w (after_miss query w) = [].
Proof.
  intros Hv Hl Hc. split; [by apply search_unconfigured|].
  split; [by eexists _, _|by calls].
Qed.

(** C7, amended. When the upstream answers a valid query with a status
    outside 200..299 other than 304 and the text of its body can be read,
    the lookup answers with that status and a body holding an error string,
    the status and the upstream's body text; one request went upstream and
    no more, and nothing was written to the cache.  And whatever the query,
    the world and the network, a lookup answers and sends at most one
    request upstream. *)
Theorem upstream_failure_propagated net query w (response : Response)
    (details : string) :
  valid query = true -> ~ live w (search_key query) -> configured api_key ->
  settled (net (search_request api_key query)) = inr response ->
  ok response = false ->
  text response = inr details -> status response <> 304 ->
  let result := vehicles_search api_key net query w in
  result.1
  = inr {| code := status response;
           body := Some (Obj [("error", Str "Marketcheck API request failed");
                              ("status", Num (status response));
                              ("details", Str details)]) |}
  /\ upstream_calls w result.2 = [search_request api_key query]
  /\ cache result.2 = delete (search_key query) (cache w)
  /\ forall net' query' w',
       (exists res, (vehicles_search api_key net' query' w').1 = inr res)
       /\ (length (upstream_calls w' (vehicles_search api_key net' query' w').2)
           <= 1)%nat.
Proof.
  intros Hv Hl Hc Hs Hok Htext H304 result. subst result.
  rewrite search_fetch by done. rewrite Hs, Hok, Htext. cbn [negb fst snd].
  unfold res_status_json. rewrite (upstream_status_has_body response) by done.
  repeat split.
  - by calls.
  - destruct (search_responds api_key net' query' w')
      as (res & c & t & evs & -> & _). by exists res.
  - destruct (search_responds api_key net' query' w')
      as (res & c & t & evs & -> & Hevs). by calls.
Qed.

(** C9, amended. When the upstream answers a valid query with a body,
    other than [null], that has no [listings] property, the lookup answers
    with the payload of an empty result ([listings] empty, [num_found] 0
    and a message), writes nothing to the cache, and does in all what it
    does for a body whose [listings] is the empty array. *)
Theorem missing_listings_is_empty net query w (response : Response)
    (payload : value) :
  valid query = true -> ~ live w (search_key query) -> configured api_key ->
  settled (net (search_request api_key query)) = inr response ->
  ok response = true -> json response = inr payload ->
  payload <> Null -> property payload "listings" = None ->
  vehicles_search api_key net query w
  = (inr (res_json no_listings), after_fetch api_key net query w)
  /\ (exists msg, no_listings = Obj [("listings", Arr []); ("num_found", Num 0);
                                     ("message", Str msg)])
  /\ cache (after_fetch api_key net query w) = delete (search_key query) (cache w)
  /\ forall net' (response' : Response) (props' : list (string * value)),
       elapsed (net' (search_request api_key query))
       = elapsed (net (search_request api_key query)) ->
       settled (net' (search_request api_key query)) = inr response' ->
       ok response' = true -> json response' = inr (Obj props') ->
       own_prop "listings" props' = Some (Arr []) ->
       vehicles_search api_key net' query w
       = vehicles_search api_key net query w.
Proof.
  intros Hv Hl Hc Hs Hok Hj Hnull Hp.
  assert (vehicles_search api_key net query w
          = (inr (res_json no_listings), after_fetch api_key net query w)) as Hrun.
  { apply (search_nothing_found _ _ _ response payload); try done.
    unfold no_results. by rewrite Hp. }
  split; [done|]. split; [by eexists|]. split; [done|].
  intros net' response' props' He Hs' Hok' Hj' Hp'. rewrite Hrun.
  rewrite (search_nothing_found net' _ _ response' (Obj props')); try done.
  - unfold after_fetch. by rewrite He.
  - unfold no_results. cbn [property]. by rewrite Hp'.
Qed.

Lemma search_key_agree query1 query2 :
  (forall name, name ∈ key_fields -> own_prop name query1 = own_prop name query2) ->
  search_key query1 = search_key query2 /\ valid query1 = valid query2.
Proof.
  intros H. unfold search_key, valid, radius_of.
  rewrite !(H "make"), !(H "model"), !(H "year"), !(H "zip"), !(H "radius");
    [done|unfold key_fields; set_solver..].
Qed.

(** C10. The row count is no part of the cache key: two queries that agree
    on make, model, year, zip and radius have the same key, whatever their
    rows.  So when a lookup for the first has stored a non-empty result,
    fetched with the first query's row count, a lookup for the second made
    less than the time to live later answers with that stored payload and
    [cached] set to [true], and sends nothing upstream. *)
Theorem rows_not_in_cache_key net1 net2 query1 query2 w (d : Z)
    (response : Response) (props : list (string * value))
    (x : value) (xs : list value) :
  (forall name, name ∈ key_fields -> own_prop name query1 = own_prop name query2) ->
  valid query1 = true -> ~ live w (search_key query1) -> configured api_key ->
  settled (net1 (search_request api_key query1)) = inr response ->
  ok response = true -> json response = inr (Obj props) ->
  own_prop "listings" props = Some (Arr (x :: xs)) ->
  d < CACHE_DURATION ->
  let first := vehicles_search api_key net1 query1 w in
  let second := vehicles_search api_key net2 query2 (tick d first.2) in
  search_key query1 = search_key query2
  /\ upstream_calls w first.2 = [search_request api_key query1]
  /\ ("rows", Some (rows_of query1)) ∈ search_params (search_request api_key query1)
  /\ first.1 = inr (res_json (Obj props))
  /\ second.1 = inr (res_json (Obj (set_prop "cached" (Bool true) props)))
  /\ upstream_calls (tick d first.2) second.2 = [].
Proof.
  intros Hq Hv Hl Hc Hs Hok Hj Hp Hd first second.
  destruct (search_key_agree _ _ Hq) as [Hkey Hvalid].
  split; [done|]. split; [by apply search_miss_calls|].
  split; [unfold search_request, upstream_request; cbn [search_params]; set_solver|].
  subst second first. rewrite (search_stored _ _ _ response props x xs) by done.
  cbn [fst snd]. rewrite search_hit_stored by (by rewrite <- ?Hvalid).
  cbn [fst snd]. repeat split. by calls.
Qed.

End Lookup.

(** ** The CORS origin callback *)

(** C8. Whatever the origin, absent or present, on the allow-list or not,
    the origin callback calls back with no error and [true]. *)
Theorem cors_allows_every_origin {A : Type} (origin : option string)
    (callback : option error -> bool -> A) :
  cors_origin origin callback = callback None true.
Proof.
  unfold cors_origin. destruct (negb (truthy _)); [done|].
  by destruct (endsWith _ _ || bool_decide _).
Qed.

(** * The scenario, run *)

Lemma camry_valid : valid camry = true.
Proof. reflexivity. Defined.

Lemma camry_cold_miss : ~ live cold (search_key camry).
Proof. intros (e & He & _). discriminate He. Defined.

Lemma consecutive_lookups_witness :
  let net := upstream (json_response 200 (Obj one_listing)) in
  let first := vehicles_search (Some "k") net camry cold in
  (vehicles_search (Some "k") net camry (tick 60000 first.2)).1
  = inr (res_json (Obj (set_prop "cached" (Bool true) one_listing))).
Proof.
  intros net first.
  destruct (consecutive_lookups (Some "k") net net camry cold 60000
              camry_valid camry_cold_miss eq_refl) as [_ H].
  destruct (H (json_response 200 (Obj one_listing)) one_listing
              (Obj [("id", Num 1)]) [] eq_refl eq_refl eq_refl eq_refl eq_refl)
    as (_ & _ & Hsecond & _).
  exact Hsecond.
Defined.

Lemma camry_expired_reachable : reachable (Some "k") camry_expired.
Proof. apply reach_tick, reach_search, reach_start. Defined.

Lemma cache_entry_expiry_witness :
  let net := upstream (json_response 200 (Obj one_listing)) in
  cache camry_expired !! search_key camry = Some (Entry (Obj one_listing) 1120)
  /\ upstream_calls camry_expired
       (vehicles_search (Some "k") net camry camry_expired).2
     = [search_request (Some "k") camry].
Proof.
  intros net.
  assert (cache camry_expired !! search_key camry
          = Some (Entry (Obj one_listing) 1120)) as Hk by (vm_compute; reflexivity).
  split; [exact Hk|].
  destruct (cache_entry_expiry (Some "k") net camry camry_expired _
              camry_expired_reachable camry_valid Hk) as (_ & _ & _ & H).
  destruct H as (_ & _ & Hcalls & _); [vm_compute; discriminate|exact Hcalls].
Defined.

Lemma missing_parameter_rejected_witness :
  let net := upstream (json_response 200 (Obj one_listing)) in
  vehicles_search (Some "k") net [("make", Str "Toyota"); ("model", Str "")] cold
  = (inr (res_status_json 400 missing_parameters), cold).
Proof.
  intros net.
  apply (missing_parameter_rejected (Some "k") net
           [("make", Str "Toyota"); ("model", Str "")] cold "model").
  - unfold required_parameters. apply list_elem_of_In. simpl. tauto.
  - right. reflexivity.
Defined.

Lemma empty_result_not_cached_witness :
  let net := upstream (json_response 200 (Obj [("listings", Arr [])])) in
  let first := vehicles_search (Some "k") net camry cold in
  first.1 = inr (res_json no_listings)
  /\ upstream_calls (tick 5 first.2)
       (vehicles_search (Some "k") net camry (tick 5 first.2)).2
     = [search_request (Some "k") camry].
Proof.
  intros net first.
  destruct (empty_result_not_cached (Some "k") net net camry cold 5
              (json_response 200 (Obj [("listings", Arr [])]))
              [("listings", Arr [])]
              camry_valid camry_cold_miss eq_refl eq_refl eq_refl eq_refl eq_refl)
    as (H1 & _ & _ & _ & _ & H2).
  split; [exact H1|exact H2].
Defined.

(** C4, as the specification words it: the payload of an empty result has
    no [count] property (the count is under [num_found]), so it is not the
    case that the answer has [listings] empty and [count] 0. *)
Lemma empty_result_has_no_count :
  ~ exists res payload,
      (vehicles_search (Some "k")
         (upstream (json_response 200 (Obj [("listings", Arr [])])))
         camry cold).1 = inr res
      /\ body res = Some payload
      /\ property payload "listings" = Some (Arr [])
      /\ property payload "count" = Some (Num 0).
Proof.
  intros (res & payload & Hres & Hbody & _ & Hcount).
  vm_compute in Hres. injection Hres as <-. cbn [body] in Hbody.
  injection Hbody as <-. discriminate Hcount.
Qed.

Lemma unconfigured_key_fails_witness :
  let net := upstream (json_response 200 (Obj one_listing)) in
  vehicles_search None net camry cold
  = (inr (res_status_json 500 key_not_configured), after_miss camry cold).
Proof.
  intros net.
  apply (unconfigured_key_fails None net camry cold camry_valid camry_cold_miss).
  discriminate.
Defined.

Lemma upstream_failure_propagated_witness :
  let response := {| status := 429; text := inr "Too Many Requests";
                     json := inl (Error "Unexpected token T in JSON") |} in
  (vehicles_search (Some "k") (upstream response) camry cold).1
  = inr {| code := 429;
           body := Some (Obj [("error", Str "Marketcheck API request failed");
                              ("status", Num 429);
                              ("details", Str "Too Many Requests")]) |}.
Proof.
  intros response.
  apply (upstream_failure_propagated (Some "k") (upstream response) camry cold
           response "Too Many Requests"
           camry_valid camry_cold_miss eq_refl eq_refl eq_refl eq_refl).
  discriminate.
Defined.

(** C7, as worded: a 502 whose body fails to read is answered by the catch
    block with 500 and the reading error, not with the upstream's status
    and body; and a 304 is passed on with its status but, as Express sends
    it, without any body. *)
Lemma upstream_failure_not_always_propagated :
  (~ exists res details,
       (vehicles_search (Some "k")
          (upstream {| status := 502; text := inl (Error "terminated");
                       json := inl (Error "terminated") |})
          camry cold).1 = inr res
       /\ code res = 502
       /\ body res = Some (Obj [("error", Str "Marketcheck API request failed");
                                ("status", Num 502);
                                ("details", Str details)]))
  /\ (~ exists res details,
        (vehicles_search (Some "k")
           (upstream {| status := 304; text := inr "";
                        json := inl (Error "Unexpected end of JSON input") |})
           camry cold).1 = inr res
        /\ code res = 304
        /\ body res = Some (Obj [("error", Str "Marketcheck API request failed");
                                 ("status", Num 304);
                                 ("details", Str details)])).
Proof.
  split; intros (res & details & Hres & Hcode & Hbody);
    vm_compute in Hres; injection Hres as <-; discriminate.
Qed.

(** C9, as worded: the body [null] has no [listings] property either, but
    reading [.listings] of it throws, and the catch block answers 500
    instead of the payload of an empty result. *)
Lemma null_body_is_internal_error :
  ok (json_response 200 Null) = true
  /\ json (json_response 200 Null) = inr Null
  /\ (vehicles_search (Some "k") (upstream (json_response 200 Null)) camry cold).1
     = inr (res_status_json 500
              (Obj [("error", Str "Internal server error");
                    ("message",
                     Str "Cannot read properties of null (reading 'listings')")]))
  /\ (vehicles_search (Some "k") (upstream (json_response 200 Null)) camry cold).1
     <> inr (res_json no_listings).
Proof. repeat split. vm_compute. discriminate. Qed.

Lemma missing_listings_is_empty_witness :
  let net := upstream (json_response 200 (Obj [("num_found", Num 0)])) in
  vehicles_search (Some "k") net camry cold
  = (inr (res_json no_listings), after_fetch (Some "k") net camry cold).
Proof.
  intros net.
  apply (missing_listings_is_empty (Some "k") net camry cold
           (json_response 200 (Obj [("num_found", Num 0)]))
           (Obj [("num_found", Num 0)])
           camry_valid camry_cold_miss eq_refl eq_refl eq_refl eq_refl).
  - discriminate.
  - reflexivity.
Defined.

Lemma camry_rows_agree (name : string) :
  name ∈ key_fields ->
  own_prop name (camry_rows "5") = own_prop name (camry_rows "20").
Proof.
  unfold key_fields. intros H%list_elem_of_In. simpl in H.
  destruct H as [<-|[<-|[<-|[<-|[<-|[]]]]]]; reflexivity.
Defined.

Lemma rows_not_in_cache_key_witness :
  let net := upstream (json_response 200 (Obj one_listing)) in
  let first := vehicles_search (Some "k") net (camry_rows "5") cold in
  search_key (camry_rows "5") = search_key (camry_rows "20")
  /\ (vehicles_search (Some "k") net (camry_rows "20") (tick 60000 first.2)).1
     = inr (res_json (Obj (set_prop "cached" (Bool true) one_listing))).
Proof.
  intros net first.
  destruct (rows_not_in_cache_key (Some "k") net net
              (camry_rows "5") (camry_rows "20") cold 60000
              (json_response 200 (Obj one_listing)) one_listing
              (Obj [("id", Num 1)]) []
              camry_rows_agree eq_refl camry_cold_miss eq_refl
              eq_refl eq_refl eq_refl eq_refl eq_refl)
    as (Hkey & _ & _ & _ & Hsecond & _).
  split; [exact Hkey|exact Hsecond].
Defined.

(** * Further properties of the code *)

(** ** What a lookup does to the cache *)

(** From a miss on, with the key configured: the outcome by cases. *)
Lemma upstream_lookup_configured (api_key : option string) (net : network)
    (query : list (string * value)) (w : world) :
  configured api_key ->
  upstream_lookup api_key net query w
  = match settled (net (search_request api_key query)) with
    | inl e => (inl e, fetched api_key net query w)
    | inr response =>
        if negb (ok response) then
          match text response with
          | inl e => (inl e, fetched api_key net query w)
          | inr errorText =>
              (inr (res_status_json (status response)
                      (Obj [("error", Str "Marketcheck API request failed");
                            ("status", Num (status response));
                            ("details", Str errorText)])),
               push (ConsoleError [Str "Marketcheck API error:";
                                   Num (status response); Str errorText])
                 (fetched api_key net query w))
          end
        else
          match json response with
          | inl e => (inl e, fetched api_key net query w)
          | inr Null =>
              (inl (Error "Cannot read properties of null (reading 'listings')"),
               fetched api_key net query w)
          | inr data =>
              if no_results data
              then (inr (res_json no_listings), fetched api_key net query w)
              else
                (inr (res_json data),
                 World (<[search_key query :=
                            Entry data (now (fetched api_key net query w))]>
                          (cache w))
                   (now (fetched api_key net query w))
                   (trace (fetched api_key net query w)))
          end
    end.
Proof.
  intros Hc. unfold configured in Hc. run. unfold fetched. rewrite Hc.
  cbn [truthy negb cache now trace]. rewrite <- app_assoc. cbn [app].
  destruct (settled _) as [e|response]; [done|].
  destruct (ok response); cbn [negb]; [|by destruct (text response)].
  destruct (json response) as [e|data]; [done|].
  destruct data as [|b|n|s|items|props]; try done.
  unfold no_results. cbn. destruct (own_prop "listings" props) as [l|]; [|done].
  cbn [default]. destruct l; cbn; try done.
  - by destruct b.
  - by destruct n.
  - by destruct s.
  - by destruct items.
  - by destruct (strict_eq_num _ _).
Qed.

(** The cache after the handler's way from a miss: as before, or with one
    entry written under the query's key. *)
Lemma upstream_lookup_cache (api_key : option string) (net : network)
    (query : list (string * value)) (w : world) :
  let after := (upstream_lookup api_key net query w).2 in
  cache after = cache w
  \/ (configured api_key
      /\ exists d, cacheable d
           /\ cache after = <[search_key query := Entry d (now after)]> (cache w)).
Proof.
  destruct (truthy (Str <$> api_key)) eqn:Hc.
  2:{ left. unfold upstream_lookup. by rewrite Hc. }
  rewrite upstream_lookup_configured by done.
  destruct (settled _) as [e|response]; [by left|].
  destruct (negb (ok response)); [destruct (text response); by left|].
  destruct (json response) as [e|data]; [by left|].
  destruct (no_results data) eqn:Hn; [left; by destruct data|].
  destruct (no_results_false_object _ Hn) as [props ->].
  right. split; [done|]. exists (Obj props). split; [|done]. split; eauto.
Qed.

(** The cache after the handler, whatever the inputs: as before, or without
    the query's key, or with that key rewritten by this lookup. *)
Lemma search_cache_effect (api_key : option string) (net : network)
    (query : list (string * value)) (w : world) :
  let after := (vehicles_search api_key net query w).2 in
  cache after = cache w
  \/ cache after = delete (search_key query) (cache w)
  \/ (valid query = true /\ configured api_key
      /\ exists d, cacheable d
           /\ cache after
              = <[search_key query := Entry d (now after)]> (cache w)).
Proof.
  rewrite vehicles_search_unfold.
  unfold try_catch, mbind, M_bind, mret, M_ret, emit.
  destruct (valid query) eqn:Hv; cbn [negb]; [|by left].
  assert (forall w1,
    cache w1 = cache w \/ cache w1 = delete (search_key query) (cache w) ->
    let after :=
      (let (s, w') := upstream_lookup api_key net query w1 in
       match s with
       | inl e => (@inr error http_response (internal_error e),
                   World (cache w') (now w') (trace w' ++ [catch_log e]))
       | inr a => (inr a, w')
       end).2 in
    cache after = cache w
    \/ cache after = delete (search_key query) (cache w)
    \/ (true = true /\ configured api_key
        /\ exists d, cacheable d
             /\ cache after
                = <[search_key query := Entry d (now after)]> (cache w)))
    as Hmiss.
  { intros w1 Hw1.
    pose proof (upstream_lookup_cache api_key net query w1) as Hup.
    destruct (upstream_lookup api_key net query w1) as [[err|res] w'];
      cbn [fst snd cache now] in *.
    all: destruct Hup as [->|(Hc & d & Hd & ->)];
      [destruct Hw1 as [-> | ->]; auto|].
    all: right; right; split; [done|]; split; [done|]; exists d; split; [done|].
    all: destruct Hw1 as [-> | ->]; by rewrite ?insert_delete_eq. }
  unfold getFromCache, cache_get, cache_delete, Date_now, mbind, M_bind, mret, M_ret.
  destruct (cache w !! search_key query) as [e|]; [|apply Hmiss; by right].
  destruct (_ <? _); [|apply Hmiss; by right].
  destruct (truthy (Some (data e))); [by left|apply Hmiss; by left].
Qed.

Lemma upstream_calls_refl (w : world) : upstream_calls w w = [].
Proof. destruct w as [c t tr]. apply upstream_calls_same. Qed.

(** X1. A lookup touches no cache entry but the one under its own key:
    every other key holds after the lookup what it held before. *)
Theorem lookup_touches_only_its_key (api_key : option string) (net : network)
    (query : list (string * value)) (w : world) (key : string) :
  key <> search_key query ->
  cache (vehicles_search api_key net query w).2 !! key = cache w !! key.
Proof.
  intros Hne.
  destruct (search_cache_effect api_key net query w)
    as [-> | [-> | (_ & _ & d & _ & ->)]].
  - done.
  - by rewrite lookup_delete_ne.
  - by rewrite lookup_insert_ne.
Qed.

Lemma lookup_touches_only_its_key_witness :
  cache (vehicles_search (Some "k") (upstream (json_response 200 (Obj one_listing)))
           (camry_radius "25") camry_expired).2 !! search_key camry
  = cache camry_expired !! search_key camry.
Proof.
  apply (lookup_touches_only_its_key (Some "k")
           (upstream (json_response 200 (Obj one_listing)))
           (camry_radius "25") camry_expired (search_key camry)).
  vm_compute. discriminate.
Defined.

(** X2. A lookup changes the number of cache entries by at most one, up or
    down. *)
Theorem lookup_changes_size_by_one (api_key : option string) (net : network)
    (query : list (string * value)) (w : world) :
  (size (cache (vehicles_search api_key net query w).2) <= S (size (cache w)))%nat
  /\ (size (cache w) <= S (size (cache (vehicles_search api_key net query w).2)))%nat.
Proof.
  destruct (search_cache_effect api_key net query w)
    as [-> | [-> | (_ & _ & d & _ & ->)]].
  - lia.
  - rewrite map_size_delete. destruct (cache w !! _); simpl; lia.
  - rewrite map_size_insert. destruct (cache w !! _); simpl; lia.
Qed.

(** X3. When the request to the upstream is rejected (the network fails),
    a lookup that missed answers 500 with [Internal server error] and the
    error's message; one request was sent, and nothing is cached. *)
Theorem network_failure_is_internal_error (api_key : option string)
    (net : network) (query : list (string * value)) (w : world) (err : error) :
  valid query = true -> ~ live w (search_key query) -> configured api_key ->
  settled (net (search_request api_key query)) = inl err ->
  (vehicles_search api_key net query w).1
  = inr (res_status_json 500
           (Obj [("error", Str "Internal server error");
                 ("message", Str (message err))]))
  /\ upstream_calls w (vehicles_search api_key net query w).2
     = [search_request api_key query]
  /\ cache (vehicles_search api_key net query w).2
     = delete (search_key query) (cache w).
Proof.
  intros Hv Hl Hc Hs. rewrite search_fetch by done. rewrite Hs.
  repeat split. by calls.
Qed.

Lemma network_failure_is_internal_error_witness :
  (vehicles_search (Some "k") unreachable_upstream camry cold).1
  = inr (res_status_json 500
           (Obj [("error", Str "Internal server error");
                 ("message", Str "fetch failed")])).
Proof.
  apply (network_failure_is_internal_error (Some "k") unreachable_upstream
           camry cold (Error "fetch failed")
           camry_valid camry_cold_miss eq_refl eq_refl).
Defined.

(** X4. When the upstream answers with a success status and a body that
    [json()] rejects, a lookup that missed answers 500 with [Internal
    server error] and the parser's message; one request was sent, and
    nothing is cached. *)
Theorem invalid_json_is_internal_error (api_key : option string)
    (net : network) (query : list (string * value)) (w : world)
    (response : Response) (err : error) :
  valid query = true -> ~ live w (search_key query) -> configured api_key ->
  settled (net (search_request api_key query)) = inr response ->
  ok response = true -> json response = inl err ->
  (vehicles_search api_key net query w).1
  = inr (res_status_json 500
           (Obj [("error", Str "Internal server error");
                 ("message", Str (message err))]))
  /\ upstream_calls w (vehicles_search api_key net query w).2
     = [search_request api_key query]
  /\ cache (vehicles_search api_key net query w).2
     = delete (search_key query) (cache w).
Proof.
  intros Hv Hl Hc Hs Hok Hj. rewrite search_fetch by done.
  rewrite Hs, Hok, Hj. cbn [negb]. repeat split. by calls.
Qed.

Lemma invalid_json_is_internal_error_witness :
  (vehicles_search (Some "k")
     (upstream {| status := 200; text := inr "<html>"; json := inl not_json |})
     camry cold).1
  = inr (res_status_json 500
           (Obj [("error", Str "Internal server error");
                 ("message", Str (message not_json))])).
Proof.
  apply (invalid_json_is_internal_error (Some "k")
           (upstream {| status := 200; text := inr "<html>"; json := inl not_json |})
           camry cold {| status := 200; text := inr "<html>"; json := inl not_json |}
           not_json camry_valid camry_cold_miss eq_refl eq_refl eq_refl eq_refl).
Defined.

(** X5. In a running process a request goes upstream only for a valid
    query, with the key configured, when the cache holds no live entry for
    the query; and the request is the one built from that query. *)
Theorem upstream_only_on_miss (api_key : option string) (net : network)
    (query : list (string * value)) (w : world) (r : fetch_request) :
  reachable api_key w ->
  r ∈ upstream_calls w (vehicles_search api_key net query w).2 ->
  valid query = true /\ configured api_key /\ ~ live w (search_key query)
  /\ r = search_request api_key query.
Proof.
  intros Hw Hr. destruct (valid query) eqn:Hv.
  2:{ rewrite search_invalid in Hr by done. cbn [snd] in Hr.
      rewrite upstream_calls_refl in Hr. by apply elem_of_nil in Hr. }
  destruct (live_dec w (search_key query)) as [(e & Hk & Ht)|Hl].
  { destruct (reachable_cache_ok _ _ Hw _ _ Hk) as (_ & [props Hp] & _).
    rewrite (search_hit _ _ _ _ e) in Hr by (by rewrite ?Hp).
    revert Hr. calls. by intros ?%elem_of_nil. }
  destruct (truthy (Str <$> api_key)) eqn:Hc.
  2:{ rewrite search_unconfigured in Hr by (by unfold configured; rewrite ?Hc).
      revert Hr. calls. by intros ?%elem_of_nil. }
  rewrite search_miss_calls in Hr by done.
  apply list_elem_of_singleton in Hr. done.
Qed.

Lemma upstream_only_on_miss_witness :
  ~ live camry_expired (search_key camry).
Proof.
  apply (upstream_only_on_miss (Some "k")
           (upstream (json_response 200 (Obj one_listing))) camry camry_expired
           (search_request (Some "k") camry) camry_expired_reachable).
  vm_compute. apply list_elem_of_here.
Defined.


(** ** [setCache] and [getFromCache] together *)

(** X6. What [setCache] stores under a key, [getFromCache] gives back for
    that key as long as less than the time to live has passed, leaving the
    world as it is; from then on the read gives [null] and takes the entry
    away.  A second [setCache] for the key replaces the first: the map is
    what the second write alone would have made it. *)
Theorem setCache_getFromCache (key : string) (d d' : value) (w : world) (dt : Z) :
  getFromCache key (tick dt (setCache key d w).2)
  = (if dt <? CACHE_DURATION
     then (inr d, tick dt (setCache key d w).2)
     else (inr Null, World (delete key (cache w)) (now w + dt) (trace w)))
  /\ cache (setCache key d' (tick dt (setCache key d w).2)).2
     = cache (setCache key d' (tick dt w)).2.
Proof.
  split.
  - unfold setCache, cache_set, Date_now, mbind, M_bind, tick. cbn [snd cache now trace].
    destruct (dt <? CACHE_DURATION) eqn:Hdt.
    + apply (getFromCache_fresh _ _ (Entry d (now w))).
      * cbn [cache]. apply lookup_insert_eq.
      * cbn [now timestamp]. apply Z.ltb_lt in Hdt. lia.
    + rewrite (getFromCache_stale _ _ (Entry d (now w))).
      * cbn [cache now trace]. by rewrite delete_insert_eq.
      * cbn [cache]. apply lookup_insert_eq.
      * cbn [now timestamp]. apply Z.ltb_ge in Hdt. lia.
  - unfold setCache, cache_set, Date_now, mbind, M_bind, tick. cbn [snd cache now trace].
    apply insert_insert_eq.
Qed.

(** X7. Reading a key the cache has no entry for gives [null] and changes
    nothing, the [delete] it does included. *)
Theorem getFromCache_without_entry (key : string) (w : world) :
  cache w !! key = None -> getFromCache key w = (inr Null, w).
Proof.
  intros Hk. rewrite getFromCache_absent by done.
  rewrite delete_id by done. by destruct w.
Qed.

Lemma getFromCache_without_entry_witness :
  getFromCache (search_key camry) cold = (inr Null, cold).
Proof. apply (getFromCache_without_entry (search_key camry) cold). reflexivity. Defined.

(** ** More on what is cached and when *)

Lemma valid_fields (query : list (string * value)) :
  valid query = true ->
  exists make model year zip,
    own_prop "make" query = Some make /\ own_prop "model" query = Some model
    /\ own_prop "year" query = Some year /\ own_prop "zip" query = Some zip.
Proof.
  unfold valid. intros H.
  destruct (own_prop "make" query) as [mk|]; [|done].
  destruct (own_prop "model" query) as [md|]; [|by rewrite andb_false_r in H].
  destruct (own_prop "year" query) as [yr|]; [|by rewrite andb_false_r in H].
  destruct (own_prop "zip" query) as [zp|]; [|by rewrite andb_false_r in H].
  by eexists _, _, _, _.
Qed.

(** X9. A query that gives the radius explicitly, as any string, has
    another cache key than the same query without radius, the default 50
    being a number: so after a lookup without radius has stored its result,
    the lookup with [radius=50] written out still goes upstream. *)
Theorem explicit_radius_is_another_entry (api_key : option string)
    (net1 net2 : network) (query1 query2 : list (string * value)) (w : world)
    (d : Z) (response : Response) (props : list (string * value))
    (x : value) (xs : list value) (s : string) :
  (forall name, name ∈ required_parameters ->
     own_prop name query1 = own_prop name query2) ->
  own_prop "radius" query1 = None -> own_prop "radius" query2 = Some (Str s) ->
  valid query1 = true ->
  cache w !! search_key query1 = None -> cache w !! search_key query2 = None ->
  configured api_key ->
  settled (net1 (search_request api_key query1)) = inr response ->
  ok response = true -> json response = inr (Obj props) ->
  own_prop "listings" props = Some (Arr (x :: xs)) ->
  search_key query1 <> search_key query2
  /\ upstream_calls (tick d (vehicles_search api_key net1 query1 w).2)
       (vehicles_search api_key net2 query2
          (tick d (vehicles_search api_key net1 query1 w).2)).2
     = [search_request api_key query2].
Proof.
  intros Hq Hr1 Hr2 Hv Hk1 Hk2 Hc Hs Hok Hj Hp.
  assert (valid query2 = true) as Hv2.
  { unfold valid in *. rewrite <- !Hq; [done|unfold required_parameters; set_solver..]. }
  assert (search_key query1 <> search_key query2) as Hne.
  { destruct (valid_fields _ Hv) as (mk & md & yr & zp & Hmk & Hmd & Hyr & Hzp).
    unfold search_key, radius_of. rewrite Hr1, Hr2.
    rewrite <- !Hq; [|unfold required_parameters; set_solver..].
    rewrite Hmk, Hmd, Hyr, Hzp. cbn [default]. rewrite !getCacheKey_params.
    intros H. repeat apply (inj (String.append _)) in H.
    by apply stringify_scalar_inj in H. }
  split; [done|].
  rewrite (search_stored _ _ _ _ response props x xs)
    by (try done; by apply not_live_absent).
  apply search_miss_calls; [done| |done].
  apply not_live_absent. cbn [snd tick cache].
  by rewrite lookup_insert_ne, lookup_delete_ne.
Qed.

Lemma explicit_radius_is_another_entry_witness :
  search_key camry <> search_key (camry_radius "50").
Proof.
  apply (explicit_radius_is_another_entry (Some "k")
           (upstream (json_response 200 (Obj one_listing)))
           (upstream (json_response 200 (Obj one_listing)))
           camry (camry_radius "50") cold 60000
           (json_response 200 (Obj one_listing)) one_listing
           (Obj [("id", Num 1)]) [] "50").
  - unfold required_parameters. intros name H%list_elem_of_In. simpl in H.
    destruct H as [<-|[<-|[<-|[<-|[]]]]]; reflexivity.
  - reflexivity.
  - reflexivity.
  - reflexivity.
  - reflexivity.
  - reflexivity.
  - reflexivity.
  - reflexivity.
  - reflexivity.
  - reflexivity.
  - reflexivity.
Defined.

(** X10. The handler does not ask that [listings] be an array: a payload
    whose [listings] is a number other than 0, [true], a non-empty string,
    an object whose [length] is not 0, or a non-empty array is answered as
    it is and cached under the query's key. *)
Theorem listings_need_not_be_an_array (api_key : option string) (net : network)
    (query : list (string * value)) (w : world) (response : Response)
    (props : list (string * value)) (l : value) :
  valid query = true -> ~ live w (search_key query) -> configured api_key ->
  settled (net (search_request api_key query)) = inr response ->
  ok response = true -> json response = inr (Obj props) ->
  own_prop "listings" props = Some l -> counts_as_results l ->
  (vehicles_search api_key net query w).1 = inr (res_json (Obj props))
  /\ cache (vehicles_search api_key net query w).2 !! search_key query
     = Some (Entry (Obj props) (now (vehicles_search api_key net query w).2)).
Proof.
  intros Hv Hl Hc Hs Hok Hj Hp Hres. rewrite search_fetch by done.
  rewrite Hs, Hok, Hj. cbn [negb].
  assert (no_results (Obj props) = false) as ->.
  { unfold no_results. cbn [property]. rewrite Hp. cbn [default].
    destruct l as [|b|n|s'|items|lp]; cbn in *.
    - done.
    - by rewrite Hres.
    - by destruct n.
    - by destruct s'.
    - by destruct items.
    - destruct (own_prop "length" lp) as [[| |n| | |]|]; try done.
      destruct n; try done. }
  cbn [fst snd cache now]. split; [done|]. by rewrite lookup_insert_eq.
Qed.

Lemma listings_need_not_be_an_array_witness :
  (vehicles_search (Some "k")
     (upstream (json_response 200 (Obj [("listings", Num 7)]))) camry cold).1
  = inr (res_json (Obj [("listings", Num 7)])).
Proof.
  apply (listings_need_not_be_an_array (Some "k")
           (upstream (json_response 200 (Obj [("listings", Num 7)]))) camry cold
           (json_response 200 (Obj [("listings", Num 7)]))
           [("listings", Num 7)] (Num 7)
           camry_valid camry_cold_miss eq_refl eq_refl eq_refl eq_refl eq_refl).
  discriminate.
Defined.

(** X12. No stale fallback: when the entry of a valid query has expired and
    the upstream then gives no payload (the request is rejected, the status
    is outside 200..299, or the body is no JSON), the lookup answers with a
    status outside 200..299, the expired entry is gone, and the same lookup
    made again, however soon, goes upstream again. *)
Theorem failed_refresh_drops_stale_entry (api_key : option string)
    (net net' : network) (query : list (string * value)) (w : world)
    (e : entry) (d : Z) :
  valid query = true -> configured api_key ->
  cache w !! search_key query = Some e ->
  CACHE_DURATION <= now w - timestamp e ->
  upstream_failed (net (search_request api_key query)) ->
  (exists res, (vehicles_search api_key net query w).1 = inr res
               /\ ~ (200 <= code res <= 299))
  /\ cache (vehicles_search api_key net query w).2 !! search_key query = None
  /\ upstream_calls (tick d (vehicles_search api_key net query w).2)
       (vehicles_search api_key net' query
          (tick d (vehicles_search api_key net query w).2)).2
     = [search_request api_key query].
Proof.
  intros Hv Hc Hk Ht Hf. pose proof (not_live_stale _ _ _ Hk Ht) as Hl.
  assert (cache (vehicles_search api_key net query w).2 !! search_key query = None)
    as Hgone.
  { rewrite search_fetch by done. unfold upstream_failed in Hf.
    destruct (settled _) as [err|response]; [apply lookup_delete_eq|].
    destruct Hf as [-> | [err ->]];
      [destruct (text response); apply lookup_delete_eq|].
    destruct (negb (ok response)); [destruct (text response)|];
      apply lookup_delete_eq. }
  split; [|split; [done|]].
  - rewrite search_fetch by done. unfold upstream_failed in Hf.
    destruct (settled _) as [err|response].
    { eexists. split; [reflexivity|]. cbn. lia. }
    assert (ok response = false -> ~ (200 <= status response <= 299)) as Hstatus.
    { unfold ok. lia. }
    destruct Hf as [Hok | [err Hj]].
    + rewrite Hok. cbn [negb]. destruct (text response).
      * eexists. split; [reflexivity|]. cbn. lia.
      * eexists. split; [reflexivity|]. cbn [code res_status_json]. auto.
    + rewrite Hj. destruct (ok response); cbn [negb].
      * eexists. split; [reflexivity|]. cbn. lia.
      * destruct (text response).
        -- eexists. split; [reflexivity|]. cbn. lia.
        -- eexists. split; [reflexivity|]. cbn [code res_status_json]. auto.
  - apply search_miss_calls; [done| |done]. by apply not_live_absent.
Qed.

Lemma failed_refresh_drops_stale_entry_witness :
  cache (vehicles_search (Some "k") unreachable_upstream camry camry_expired).2
    !! search_key camry = None.
Proof.
  apply (failed_refresh_drops_stale_entry (Some "k") unreachable_upstream
           unreachable_upstream camry camry_expired
           (Entry (Obj one_listing) 1120) 0 camry_valid eq_refl).
  - vm_compute. reflexivity.
  - vm_compute. discriminate.
  - exact I.
Defined.

(** ** The cache of a running process *)

(** X13. In a running process every cache entry sits under the key of some
    valid query, was stored with the key configured, and holds an object
    whose [listings] counted as results. *)
Theorem cache_holds_results_of_valid_queries (api_key : option string)
    (w : world) (key : string) (e : entry) :
  reachable api_key w -> cache w !! key = Some e ->
  (exists query, valid query = true /\ key = search_key query)
  /\ configured api_key
  /\ exists props l, data e = Obj props /\ own_prop "listings" props = Some l
                     /\ counts_as_results l.
Proof.
  intros Hw. revert key e.
  induction Hw as [t|d w _ IH|net query w _ IH]; intros key e Hk.
  - cbn [cache] in Hk. by rewrite lookup_empty in Hk.
  - by apply IH.
  - destruct (search_cache_effect api_key net query w)
      as [Heq | [Heq | (Hv & Hc & d & [Hn [props ->]] & Heq)]];
      rewrite Heq in Hk.
    + by apply IH.
    + apply lookup_delete_Some in Hk as [_ Hk]. by apply IH.
    + apply lookup_insert_Some in Hk as [[<- <-]|[_ Hk]]; [|by apply IH].
      split; [by exists query|]. split; [done|]. cbn [data].
      unfold no_results in Hn. cbn [property] in Hn.
      destruct (own_prop "listings" props) as [l|] eqn:Hl; [|done].
      exists props, l. split; [done|]. split; [done|].
      cbn [default] in Hn. destruct l as [|b|n|s'|items|lp]; cbn in *.
      * done.
      * by destruct b.
      * by destruct n.
      * by destruct s'.
      * by destruct items.
      * intros Hlen. by rewrite Hlen in Hn.
Qed.

Lemma cache_holds_results_of_valid_queries_witness :
  (exists query, valid query = true /\ search_key camry = search_key query)
  /\ configured (Some "k")
  /\ exists props l,
       data (Entry (Obj one_listing) 1120) = Obj props
       /\ own_prop "listings" props = Some l /\ counts_as_results l.
Proof.
  apply (cache_holds_results_of_valid_queries (Some "k") camry_expired
           (search_key camry) (Entry (Obj one_listing) 1120)
           camry_expired_reachable).
  vm_compute. reflexivity.
Defined.

(** ** The health route *)

Lemma health_run (toISOString : Z -> string) (api_key : option string) (w : world) :
  health toISOString api_key w
  = (inr (res_json
            (Obj [("status", Str "ok");
                  ("timestamp", Str (toISOString (now w)));
                  ("cache_size", Num (Z.of_nat (size (cache w))));
                  ("api_key_configured", Bool (truthy (Str <$> api_key)))])),
     w).
Proof. reflexivity. Qed.

Lemma health_reported_size (toISOString : Z -> string) (api_key : option string)
    (w : world) :
  reported_size (health toISOString api_key w).1
  = Some (Num (Z.of_nat (size (cache w)))).
Proof. reflexivity. Qed.

(** X11. The health route counts expired entries too.  While the entry of
    a valid query sits expired in the cache, the reported [cache_size] is
    the number of entries, at least 1; the lookup that reads the expired
    entry brings the number down by one, or leaves it as it is when it
    stores a fresh payload under the key. *)
Theorem health_counts_expired_entries (toISOString : Z -> string)
    (api_key : option string) (net : network)
    (query : list (string * value)) (w : world) (e : entry) :
  valid query = true ->
  cache w !! search_key query = Some e ->
  CACHE_DURATION <= now w - timestamp e ->
  let after := (vehicles_search api_key net query w).2 in
  reported_size (health toISOString api_key w).1
  = Some (Num (Z.of_nat (size (cache w))))
  /\ (1 <= size (cache w))%nat
  /\ (reported_size (health toISOString api_key after).1
      = Some (Num (Z.of_nat (size (cache w)) - 1))
      \/ (reported_size (health toISOString api_key after).1
          = Some (Num (Z.of_nat (size (cache w))))
          /\ exists d, cache after !! search_key query
                       = Some (Entry d (now after)))).
Proof.
  intros Hv Hk Ht after. rewrite !health_reported_size.
  split; [reflexivity|].
  assert (1 <= size (cache w))%nat as Hsize.
  { destruct (decide (size (cache w) = 0%nat)) as [H0|]; [|lia].
    apply map_size_empty_iff in H0. rewrite H0 in Hk. by rewrite lookup_empty in Hk. }
  split; [done|].
  pose proof (not_live_stale _ _ _ Hk Ht) as Hl.
  assert (cache after = delete (search_key query) (cache w)
          \/ exists d, cache after
                       = <[search_key query := Entry d (now after)]> (cache w))
    as [Heq|[d Heq]].
  { subst after. destruct (truthy (Str <$> api_key)) eqn:Hc.
    2:{ left. rewrite search_unconfigured by (by unfold configured; rewrite ?Hc).
        reflexivity. }
    rewrite search_fetch by done.
    destruct (settled _) as [err|response]; [by left|].
    destruct (negb (ok response)); [destruct (text response); by left|].
    destruct (json response) as [err|data]; [by left|].
    destruct (no_results data) eqn:Hn; [left; by destruct data|].
    destruct (no_results_false_object _ Hn) as [props ->].
    right. eexists. cbn [snd cache now after_fetch]. apply insert_delete_eq. }
  - left. rewrite Heq, map_size_delete, Hk. cbn [pred].
    do 2 f_equal. lia.
  - right. rewrite Heq, map_size_insert, Hk. split; [reflexivity|].
    exists d. by rewrite lookup_insert_eq.
Qed.

Lemma health_counts_expired_entries_witness :
  reported_size (health iso_of_scenario (Some "k") camry_expired).1
  = Some (Num 1).
Proof.
  apply (health_counts_expired_entries iso_of_scenario (Some "k")
           unreachable_upstream camry camry_expired
           (Entry (Obj one_listing) 1120) camry_valid).
  - vm_compute. reflexivity.
  - vm_compute. discriminate.
Defined.

(** X14. The health route and the search route agree on the key: for a
    valid query that misses, the health answer has [api_key_configured]
    [true] exactly when the lookup sends a request upstream. *)
Theorem health_key_flag_matches_search (toISOString : Z -> string)
    (api_key : option string) (net : network)
    (query : list (string * value)) (w : world) :
  valid query = true -> ~ live w (search_key query) ->
  reported_key (health toISOString api_key w).1 = Some (Bool true)
  <-> upstream_calls w (vehicles_search api_key net query w).2
      = [search_request api_key query].
Proof.
  intros Hv Hl. rewrite health_run. cbn.
  destruct (truthy (Str <$> api_key)) eqn:Hc.
  - split; [intros _; by apply search_miss_calls|done].
  - rewrite search_unconfigured by (by unfold configured; rewrite ?Hc).
    split; [done|]. by calls.
Qed.

Lemma health_key_flag_matches_search_witness :
  reported_key (health iso_of_scenario None cold).1 = Some (Bool true)
  <-> upstream_calls cold
        (vehicles_search None unreachable_upstream camry cold).2
      = [search_request None camry].
Proof.
  apply (health_key_flag_matches_search iso_of_scenario None unreachable_upstream
           camry cold camry_valid camry_cold_miss).
Defined.

(** ** The cache key of any parsed query *)

Lemma value_ind_nested (P : value -> Prop) :
  P Null -> (forall b, P (Bool b)) -> (forall n, P (Num n)) ->
  (forall s, P (Str s)) ->
  (forall items, Forall P items -> P (Arr items)) ->
  (forall props, Forall (fun kv => P (snd kv)) props -> P (Obj props)) ->
  forall v, P v.
Proof.
  intros HNull HBool HNum HStr HArr HObj. fix IH 1.
  intros [|b|n|s|items|props].
  - exact HNull.
  - apply HBool.
  - apply HNum.
  - apply HStr.
  - apply HArr. revert items. fix IHl 1. intros [|x items].
    + constructor.
    + constructor; [apply IH|apply IHl].
  - apply HObj. revert props. fix IHl 1. intros [|[k v] props].
    + constructor.
    + constructor; [apply IH|apply IHl].
Qed.

Lemma join_items_text (parts : list string) (close : ascii) (rest : string) :
  join "," parts +:+ String close rest = items_text parts close rest.
Proof.
  destruct parts as [|x parts]; [done|]. cbn [items_text].
  revert x. induction parts as [|y parts IH]; intros x; [done|].
  unfold join in *. cbn [String.concat tail_text].
  rewrite !append_assoc. do 2 f_equal. apply IH.
Qed.

Section Sequences.

Context {A : Type} (f : A -> string) (Q : A -> bool) (close : ascii).

(** An element's text never starts with a comma or the closing bracket. *)
Hypothesis f_head : forall a, Q a = true ->
  exists c t, f a = String c t /\ c <> close /\ c <> ","%char.
Hypothesis close_not_comma : close <> ","%char.

Lemma tail_text_inj (l l' : list A) (r r' : string) :
  Forall (delimited f Q) l -> forallb Q l' = true ->
  tail_text (map f l) close r = tail_text (map f l') close r' ->
  l = l' /\ r = r'.
Proof.
  intros Hl. revert l'. induction Hl as [|a l Ha _ IH]; intros [|a' l'] HQ H;
    cbn [map tail_text] in H.
  - by injection H as ->.
  - rewrite append_cons in H. injection H as H _. by destruct close_not_comma.
  - rewrite append_cons in H. injection H as H _. by destruct close_not_comma.
  - cbn [forallb] in HQ. apply andb_true_iff in HQ as [HQa HQl].
    apply (inj (String.append _)) in H.
    apply Ha in H as [-> H]; [|done]. by apply IH in H as [-> ->].
Qed.

Lemma items_text_inj (l l' : list A) (r r' : string) :
  Forall (delimited f Q) l -> forallb Q l = true -> forallb Q l' = true ->
  items_text (map f l) close r = items_text (map f l') close r' ->
  l = l' /\ r = r'.
Proof.
  intros Hl HQ HQ' H. destruct Hl as [|a l Ha Hl], l' as [|a' l'];
    cbn [map items_text] in H; cbn [forallb] in *.
  - by injection H as ->.
  - apply andb_true_iff in HQ' as [HQa _].
    destruct (f_head a' HQa) as (c & t & Hf & Hc & _). rewrite Hf in H.
    rewrite append_cons in H. injection H as H _. by destruct Hc.
  - apply andb_true_iff in HQ as [HQa _].
    destruct (f_head a HQa) as (c & t & Hf & Hc & _). rewrite Hf in H.
    rewrite append_cons in H. injection H as H _. by destruct Hc.
  - apply andb_true_iff in HQ' as [HQa HQl].
    apply Ha in H as [-> H]; [|done].
    by apply tail_text_inj in H as [-> ->].
Qed.

End Sequences.

Lemma stringify_head (v : value) :
  is_query_value v = true ->
  exists c t, JSON_stringify v = String c t
              /\ (c = dquote \/ c = "["%char \/ c = "{"%char).
Proof.
  destruct v; try done; intros _; cbn [JSON_stringify].
  - unfold quote. eauto.
  - rewrite append_cons. eauto 6.
  - rewrite append_cons. eauto 6.
Qed.

Lemma member_head (kv : string * value) :
  exists c t, member_text kv = String c t /\ c <> "}"%char /\ c <> ","%char.
Proof.
  unfold member_text. rewrite quote_app. by eexists _, _.
Qed.

Lemma append_nil_l (a : string) : "" +:+ a = a.
Proof. reflexivity. Qed.

Lemma stringify_Arr_app (items : list value) (r : string) :
  JSON_stringify (Arr items) +:+ r
  = String "[" (items_text (map JSON_stringify items) "]" r).
Proof.
  cbn [JSON_stringify].
  rewrite !append_assoc, append_cons, append_nil_l, (append_cons "]"), append_nil_l.
  by rewrite join_items_text.
Qed.

Lemma stringify_Obj_app (props : list (string * value)) (r : string) :
  JSON_stringify (Obj props) +:+ r
  = String "{" (items_text (map member_text props) "}" r).
Proof.
  cbn [JSON_stringify].
  rewrite !append_assoc, append_cons, append_nil_l, (append_cons "}"), append_nil_l.
  by rewrite join_items_text.
Qed.

(** The text of a query value can be told from what follows it. *)
Lemma stringify_delimited (v : value) :
  is_query_value v = true -> delimited JSON_stringify is_query_value v.
Proof.
  induction v as [|b|n|s|items IH|props IH] using value_ind_nested; try done.
  - intros _ [|b'|n'|s'|items'|props'] r r' Hv'; try done;
      rewrite ?stringify_Arr_app, ?stringify_Obj_app; cbn [JSON_stringify];
      rewrite ?quote_app; try done.
    rewrite <- !quote_app. by intros [-> ->]%quote_app_inj.
  - intros Hv [|b'|n'|s'|items'|props'] r r' Hv'; try done;
      rewrite ?stringify_Arr_app, ?stringify_Obj_app; cbn [JSON_stringify];
      rewrite ?quote_app; try done.
    intros [= H]. cbn [is_query_value] in Hv, Hv'.
    apply (items_text_inj JSON_stringify is_query_value) in H as [-> ->]; try done.
    + intros a Ha. destruct (stringify_head a Ha) as (c & t & -> & [-> | [-> | ->]]);
        by eexists _, _.
    + apply Forall_forall. intros a Ha. rewrite Forall_forall in IH.
      apply (IH a Ha). rewrite forallb_forall in Hv. apply Hv.
      by apply list_elem_of_In.
  - intros Hv [|b'|n'|s'|items'|props'] r r' Hv'; try done;
      rewrite ?stringify_Arr_app, ?stringify_Obj_app; cbn [JSON_stringify];
      rewrite ?quote_app; try done.
    intros [= H]. cbn [is_query_value] in Hv, Hv'.
    apply (items_text_inj member_text (fun kv => is_query_value (snd kv))) in H
      as [-> ->]; try done.
    + intros a _. apply member_head.
    + apply Forall_forall. intros [k a] Ha [k' a'] r0 r0' Ha' Heq.
      unfold member_text in Heq. cbn [fst snd] in *.
      rewrite !append_assoc in Heq.
      apply quote_app_inj in Heq as [-> Heq].
      apply (inj (String.append _)) in Heq.
      rewrite Forall_forall in IH. rewrite forallb_forall in Hv.
      assert (is_query_value a = true) as Hqa
        by (apply (Hv (k', a)); by apply list_elem_of_In).
      destruct (IH (k', a) Ha Hqa a' r0 r0' Ha' Heq) as [Heqa Heqr].
      cbn [snd] in Heqa. by subst.
Qed.

Lemma pretty_N_go_starts (b : ascii) (x : N) (s : string) :
  (forall y, pretty_N_char y <> b) ->
  (forall t, s <> String b t) -> forall t, pretty_N_go x s <> String b t.
Proof.
  intros Hb. revert s. induction (N.lt_wf_0 x) as [x _ IH]; intros s Hs.
  assert (x = 0 \/ 0 < x)%N as [->|Hx] by lia.
  - by rewrite pretty_N_go_0.
  - rewrite pretty_N_go_step by done. apply IH.
    + by apply N.div_lt.
    + intros t [= H _]. by apply Hb in H.
Qed.

Lemma pretty_N_go_nonempty (x : N) (s : string) :
  s <> "" -> pretty_N_go x s <> "".
Proof.
  revert s. induction (N.lt_wf_0 x) as [x _ IH]; intros s Hs.
  assert (x = 0 \/ 0 < x)%N as [->|Hx] by lia.
  - by rewrite pretty_N_go_0.
  - rewrite pretty_N_go_step by done. apply IH; [by apply N.div_lt|done].
Qed.

Lemma pretty_Z_nonempty (n : Z) : pretty n <> "".
Proof.
  destruct n as [|p|p]; unfold pretty, pretty_Z; [done| |done].
  unfold pretty, pretty_positive, pretty, pretty_N. case_decide; [done|].
  rewrite pretty_N_go_step by done. by apply pretty_N_go_nonempty.
Qed.

Lemma pretty_Z_starts (b : ascii) (n : Z) (t : string) :
  (forall y, pretty_N_char y <> b) -> b <> "-"%char ->
  pretty n <> String b t.
Proof.
  intros Hb Hdash. destruct n as [|p|p]; unfold pretty, pretty_Z.
  - intros [= H]. by apply (Hb 0%N).
  - unfold pretty, pretty_positive, pretty, pretty_N.
    case_decide; [done|]. by apply pretty_N_go_starts.
  - rewrite append_cons. intros [= H]. by destruct Hdash.
Qed.

Lemma number_is_no_query_value (n : Z) (v : value) (r r' : string) :
  is_query_value v = true ->
  pretty n +:+ r <> JSON_stringify v +:+ r'.
Proof.
  intros Hv H. destruct (stringify_head v Hv) as (c & t & Hc & Hcases).
  rewrite Hc in H. destruct (pretty n) as [|c' t'] eqn:Hn.
  { by apply pretty_Z_nonempty in Hn. }
  rewrite !append_cons in H. injection H as -> _.
  apply pretty_Z_starts in Hn; [done| |].
  - intros y. unfold pretty_N_char.
    destruct Hcases as [-> | [-> | ->]]; by repeat case_match.
  - by destruct Hcases as [-> | [-> | ->]].
Qed.

Lemma stringify_query_value_inj (v v' : value) (r r' : string) :
  is_query_value v = true -> is_query_value v' = true ->
  JSON_stringify v +:+ r = JSON_stringify v' +:+ r' -> v = v' /\ r = r'.
Proof. intros Hv Hv'. by apply stringify_delimited. Qed.

Lemma radius_cases (r : value) :
  is_radius r = true -> (exists n, r = Num n) \/ is_query_value r = true.
Proof. destruct r; try done; eauto. Qed.

Lemma stringify_radius_inj (r1 r2 : value) :
  is_radius r1 = true -> is_radius r2 = true ->
  JSON_stringify r1 +:+ "}" = JSON_stringify r2 +:+ "}" -> r1 = r2.
Proof.
  intros [[n1 ->]|H1]%radius_cases [[n2 ->]|H2]%radius_cases H.
  - cbn [JSON_stringify] in H. apply append_inv_tail in H.
    f_equal. by apply (inj pretty) in H.
  - by apply number_is_no_query_value in H.
  - symmetry in H. by apply number_is_no_query_value in H.
  - by apply stringify_query_value_inj in H as [? _].
Qed.

Lemma own_prop_parsed (query : list (string * value)) (name : string) (v : value) :
  parsed query = true -> own_prop name query = Some v -> is_query_value v = true.
Proof.
  unfold parsed. induction query as [|[k x] query IH]; [done|].
  cbn [forallb own_prop snd]. intros [Hx Hq]%andb_true_iff.
  destruct (String.eqb k name); [by intros [= ->]|by apply IH].
Qed.

Lemma radius_of_parsed (query : list (string * value)) :
  parsed query = true -> is_radius (radius_of query) = true.
Proof.
  intros Hq. unfold radius_of.
  destruct (own_prop "radius" query) as [v|] eqn:Hr; [|done].
  cbn [default]. apply (own_prop_parsed _ _ _ Hq) in Hr. by destruct v.
Qed.

(** X8. Two valid parsed queries, whatever strings, arrays and objects
    their parameters hold, have the same cache key exactly when they agree
    on make, model, year and zip and on the radius after its default. *)
Theorem search_key_injective (query1 query2 : list (string * value)) :
  parsed query1 = true -> parsed query2 = true ->
  valid query1 = true -> valid query2 = true ->
  search_key query1 = search_key query2
  <-> (forall name, name ∈ required_parameters ->
         own_prop name query1 = own_prop name query2)
      /\ radius_of query1 = radius_of query2.
Proof.
  intros Hp1 Hp2 Hv1 Hv2.
  destruct (valid_fields _ Hv1) as (mk1 & md1 & yr1 & zp1 & Hmk1 & Hmd1 & Hyr1 & Hzp1).
  destruct (valid_fields _ Hv2) as (mk2 & md2 & yr2 & zp2 & Hmk2 & Hmd2 & Hyr2 & Hzp2).
  pose proof (own_prop_parsed _ _ _ Hp1 Hmk1) as Qmk1.
  pose proof (own_prop_parsed _ _ _ Hp1 Hmd1) as Qmd1.
  pose proof (own_prop_parsed _ _ _ Hp1 Hyr1) as Qyr1.
  pose proof (own_prop_parsed _ _ _ Hp1 Hzp1) as Qzp1.
  pose proof (own_prop_parsed _ _ _ Hp2 Hmk2) as Qmk2.
  pose proof (own_prop_parsed _ _ _ Hp2 Hmd2) as Qmd2.
  pose proof (own_prop_parsed _ _ _ Hp2 Hyr2) as Qyr2.
  pose proof (own_prop_parsed _ _ _ Hp2 Hzp2) as Qzp2.
  unfold search_key. rewrite Hmk1, Hmd1, Hyr1, Hzp1, Hmk2, Hmd2, Hyr2, Hzp2.
  split.
  - rewrite !getCacheKey_params. intros H.
    do 4 apply (inj (String.append _)) in H.
    apply stringify_query_value_inj in H as [-> H]; [|done..].
    do 3 apply (inj (String.append _)) in H.
    apply stringify_query_value_inj in H as [-> H]; [|done..].
    do 3 apply (inj (String.append _)) in H.
    apply stringify_query_value_inj in H as [-> H]; [|done..].
    do 3 apply (inj (String.append _)) in H.
    apply stringify_query_value_inj in H as [-> H]; [|done..].
    do 3 apply (inj (String.append _)) in H.
    apply stringify_radius_inj in H; [|by apply radius_of_parsed..].
    split; [|done]. unfold required_parameters. intros name Hn.
    rewrite !elem_of_cons, elem_of_nil in Hn.
    destruct Hn as [->|[->|[->|[->|[]]]]]; congruence.
  - intros [Hq Hr]. unfold required_parameters in Hq.
    assert (mk1 = mk2) as -> by (specialize (Hq "make"); rewrite Hmk1, Hmk2 in Hq;
      injection Hq; [done|set_solver]).
    assert (md1 = md2) as -> by (specialize (Hq "model"); rewrite Hmd1, Hmd2 in Hq;
      injection Hq; [done|set_solver]).
    assert (yr1 = yr2) as -> by (specialize (Hq "year"); rewrite Hyr1, Hyr2 in Hq;
      injection Hq; [done|set_solver]).
    assert (zp1 = zp2) as -> by (specialize (Hq "zip"); rewrite Hzp1, Hzp2 in Hq;
      injection Hq; [done|set_solver]).
    by rewrite Hr.
Qed.

Lemma search_key_injective_witness :
  search_key two_makes <> search_key comma_make.
Proof.
  intros H.
  apply (search_key_injective two_makes comma_make eq_refl eq_refl eq_refl eq_refl)
    in H as [H _].
  specialize (H "make" (list_elem_of_here _ _)). discriminate H.
Defined.

(** ** What the handler reads and what it answers *)

(** X15. The handler reads make, model, year, zip, radius and rows and
    nothing else of the query: two queries that agree on these six are
    answered alike and leave the same world, so no other parameter (a
    [start], an [api_key]) reaches the cache key or the upstream request. *)
Theorem other_parameters_are_ignored (api_key : option string) (net : network)
    (query1 query2 : list (string * value)) (w : world) :
  (forall name, name ∈ read_parameters ->
     own_prop name query1 = own_prop name query2) ->
  vehicles_search api_key net query1 w = vehicles_search api_key net query2 w.
Proof.
  intros H. unfold vehicles_search.
  rewrite !(H "make"), !(H "model"), !(H "year"), !(H "zip"), !(H "radius"),
    !(H "rows"); [done|unfold read_parameters; set_solver..].
Qed.

Lemma other_parameters_are_ignored_witness :
  vehicles_search (Some "k") (upstream (json_response 200 (Obj one_listing)))
    camry_injected cold
  = vehicles_search (Some "k") (upstream (json_response 200 (Obj one_listing)))
      camry cold.
Proof.
  apply (other_parameters_are_ignored (Some "k")
           (upstream (json_response 200 (Obj one_listing)))
           camry_injected camry cold).
  unfold read_parameters. intros name H%list_elem_of_In. simpl in H.
  destruct H as [<-|[<-|[<-|[<-|[<-|[<-|[]]]]]]]; reflexivity.
Defined.




(** X17. In a running process, an answer with status 200 given without a
    request to the upstream is the payload of a live cache entry of the
    query's key, marked [cached]. *)
Theorem answers_without_upstream_are_live (api_key : option string)
    (net : network) (query : list (string * value)) (w : world)
    (res : http_response) :
  reachable api_key w ->
  (vehicles_search api_key net query w).1 = inr res ->
  code res = 200 ->
  upstream_calls w (vehicles_search api_key net query w).2 = [] ->
  exists e, cache w !! search_key query = Some e
            /\ now w - timestamp e < CACHE_DURATION
            /\ body res
               = Some (Obj (set_prop "cached" (Bool true) (spread (data e)))).
Proof.
  intros Hw Hres Hcode Hcalls. destruct (valid query) eqn:Hv.
  2:{ rewrite search_invalid in Hres by done. cbn [fst] in Hres.
      injection Hres as <-. discriminate Hcode. }
  destruct (live_dec w (search_key query)) as [(e & Hk & Ht)|Hl].
  { destruct (reachable_cache_ok _ _ Hw _ _ Hk) as (_ & [props Hp] & _).
    rewrite (search_hit _ _ _ _ e) in Hres by (by rewrite ?Hp).
    cbn [fst] in Hres. injection Hres as <-. by exists e. }
  destruct (truthy (Str <$> api_key)) eqn:Hc.
  2:{ rewrite search_unconfigured in Hres
        by (by unfold configured; rewrite ?Hc).
      cbn [fst] in Hres. injection Hres as <-. discriminate Hcode. }
  by rewrite search_miss_calls in Hcalls.
Qed.

Lemma answers_without_upstream_are_live_witness :
  exists e,
    cache (tick 5 (vehicles_search (Some "k")
                     (upstream (json_response 200 (Obj one_listing)))
                     camry cold).2) !! search_key camry = Some e
    /\ data e = Obj one_listing.
Proof.
  destruct (answers_without_upstream_are_live (Some "k") unreachable_upstream
              camry
              (tick 5 (vehicles_search (Some "k")
                         (upstream (json_response 200 (Obj one_listing)))
                         camry cold).2)
              (res_json (Obj (set_prop "cached" (Bool true) one_listing))))
    as (e & He & _ & Hbody).
  - apply reach_tick, reach_search, reach_start.
  - vm_compute. reflexivity.
  - reflexivity.
  - vm_compute. reflexivity.
  - exists e. split; [exact He|].
    vm_compute in He. injection He as <-. reflexivity.
Defined.

